(** * PyInstaller/utils/osx.py: Mach-O header patching for code signing

    A shallow embedding of [PyInstaller.utils.osx] and the properties of
    [fix_exe_for_code_signing] and of the Homebrew / MacPorts prefix
    helpers.

    The Mach-O container format is decoded and encoded by [macholib]; the
    embedding therefore works on the decoded view of the executable (the
    ordered load commands of each architecture slice and, for a fat binary,
    the table of [fat_arch] entries) and models the on-disk file by that
    view together with its byte length. *)

From Stdlib Require Import ZArith Lia Bool Ascii String.
From stdpp Require Import base list strings.

Local Open Scope Z_scope.

(* ===================================================================== *)
(** * Exceptions *)
(* ===================================================================== *)

(** The Python exceptions the module can raise.  [AssertionError] carries
    the message of the failing [assert]; [StructError] is [struct.error],
    raised by [struct.pack] when a value does not fit the field it is
    packed into; [NameError] stands for the use of a local variable that
    no branch has bound. *)
Inductive exn : Type :=
| AssertionError (msg : string)
| IndexError
| NameError
| TypeError
| StructError.

#[global] Instance exn_eq_dec : EqDecision exn.
Proof. solve_decision. Defined.

(* ===================================================================== *)
(** * Toolchain prefixes (lines 25-68) *)
(* ===================================================================== *)

Module Prefix.

(** [posixpath.dirname] on a string: everything up to the last slash,
    with the trailing slashes of that head removed unless the head
    consists of slashes only. *)
Definition is_sep (c : ascii) : bool := Ascii.eqb c "/"%char.

Fixpoint drop_while (p : ascii -> bool) (l : list ascii) : list ascii :=
  match l with
  | [] => []
  | c :: r => if p c then drop_while p r else l
  end.

Definition posix_dirname (p : string) : string :=
  let head := drop_while (fun c => negb (is_sep c)) (rev (list_ascii_of_string p)) in
  let head :=
    if negb (forallb is_sep head) then drop_while is_sep head else head in
  string_of_list_ascii (rev head).

(** [os.path.dirname(p)]: [os.fspath] rejects [None] with a [TypeError]. *)
Definition dirname (p : option string) : exn + string :=
  match p with
  | None => inl TypeError
  | Some s => inr (posix_dirname s)
  end.

(** [str.startswith] and the truth value of a string. *)
Definition startswith (s pre : string) : bool := String.prefix pre s.

Definition truthy (s : string) : bool :=
  match s with EmptyString => false | _ => true end.

Section Env.
(** [which] is [shutil.which] in the current environment: the full path
    of a command found on PATH, or [None].  [base_prefix] is the
    constant imported from [PyInstaller.compat]. *)
Variable which : string -> option string.
Variable base_prefix : string.

Definition get_homebrew_prefix : exn + string :=
  let prefix := which "brew" in
  match dirname prefix with
  | inl e => inl e
  | inr d => dirname (Some d)
  end.

Definition get_macports_prefix : exn + string :=
  let prefix := which "port" in
  match dirname prefix with
  | inl e => inl e
  | inr d => dirname (Some d)
  end.

Definition is_homebrew_env : exn + bool :=
  match get_homebrew_prefix with
  | inl e => inl e
  | inr env_prefix =>
      if truthy env_prefix && startswith base_prefix env_prefix
      then inr true else inr false
  end.

Definition is_macports_env : exn + bool :=
  match get_macports_prefix with
  | inl e => inl e
  | inr env_prefix =>
      if truthy env_prefix && startswith base_prefix env_prefix
      then inr true else inr false
  end.
End Env.

End Prefix.

(* ===================================================================== *)
(** * The decoded Mach-O model *)
(* ===================================================================== *)

(** The kind of a load command, [cmd[0].cmd] in the source.  macholib picks
    the structure of [cmd[1]] from this code, so the kind and the shape of
    the command go together; kinds the module never looks at are
    [LC_OTHER]. *)
Inductive lc_kind : Type :=
| LC_SEGMENT_64
| LC_SYMTAB
| LC_CODE_SIGNATURE
| LC_OTHER (code : Z).

#[global] Instance lc_kind_eq_dec : EqDecision lc_kind.
Proof. solve_decision. Defined.

(** [segment_command_64], [symtab_command] and [linkedit_data_command] of
    [macholib.mach_o]. *)
Record segment_command_64 : Type := {
  segname : string;
  vmaddr : Z;
  vmsize : Z;
  fileoff : Z;
  filesize : Z;
  maxprot : Z;
  initprot : Z;
  nsects : Z;
  flags : Z
}.

Record symtab_command : Type := {
  symoff : Z;
  nsyms : Z;
  stroff : Z;
  strsize : Z
}.

Record linkedit_data_command : Type := {
  dataoff : Z;
  datasize : Z
}.

(** One entry of [header.commands]. *)
Inductive command : Type :=
| Segment64 (seg : segment_command_64)
| Symtab (sym : symtab_command)
| CodeSignature (sig : linkedit_data_command)
| OtherCommand (code : Z) (body : list Z).

Definition cmd (c : command) : lc_kind :=
  match c with
  | Segment64 _ => LC_SEGMENT_64
  | Symtab _ => LC_SYMTAB
  | CodeSignature _ => LC_CODE_SIGNATURE
  | OtherCommand code _ => LC_OTHER code
  end.

(** A slice as [MachO] presents it: its byte offset in the file (zero for a
    thin binary) and its load commands. *)
Record MachOHeader : Type := {
  offset : Z;
  commands : list command
}.

(** The two fat magics, and an entry of the fat table ([fat_arch] or
    [fat_arch64], which differ in the width of [offset] and [size]). *)
Inductive fat_magic : Type := FAT_MAGIC | FAT_MAGIC_64.

Record fat_arch : Type := {
  cputype : Z;
  cpusubtype : Z;
  arch_offset : Z;
  arch_size : Z;
  align : Z
}.

(** [MachO]: [fat] is [None] for a thin binary and the fat header
    otherwise. *)
Record MachO : Type := {
  fat : option fat_magic;
  headers : list MachOHeader
}.

(** Assignments to structure fields. *)
Definition set_filesize (v : Z) (s : segment_command_64) : segment_command_64 :=
  {| segname := segname s; vmaddr := vmaddr s; vmsize := vmsize s;
     fileoff := fileoff s; filesize := v; maxprot := maxprot s;
     initprot := initprot s; nsects := nsects s; flags := flags s |}.

Definition set_strsize (v : Z) (s : symtab_command) : symtab_command :=
  {| symoff := symoff s; nsyms := nsyms s; stroff := stroff s; strsize := v |}.

Definition set_arch_size (v : Z) (a : fat_arch) : fat_arch :=
  {| cputype := cputype a; cpusubtype := cpusubtype a;
     arch_offset := arch_offset a; arch_size := v; align := align a |}.

Definition set_commands (cs : list command) (h : MachOHeader) : MachOHeader :=
  {| offset := offset h; commands := cs |}.

(* ===================================================================== *)
(** * The file on disk *)
(* ===================================================================== *)

(** The content of the executable, as macholib decodes it: the load
    commands of the only slice, or the fat magic and, per slice, its
    [fat_arch] entry and its load commands. *)
Inductive image : Type :=
| Thin (cmds : list command)
| Fat (magic : fat_magic) (slices : list (fat_arch * list command)).

Record file : Type := {
  file_size : Z;
  contents : image
}.

(** What has been written to the file: one event per structure passed to
    [to_fileobj]. *)
Inductive io_event : Type :=
| WriteMachHeader (slice : nat)
| WriteCommand (slice index : nat)
| WriteFatHeader
| WriteFatArch (index : nat).

Record world : Type := {
  disk : file;
  written : list io_event
}.

Definition image_slices (img : image) : list (list command) :=
  match img with
  | Thin cmds => [cmds]
  | Fat _ slices => slices.*2
  end.

Definition image_archs (img : image) : list fat_arch :=
  match img with
  | Thin _ => []
  | Fat _ slices => slices.*1
  end.

Definition image_fat (img : image) : option fat_magic :=
  match img with
  | Thin _ => None
  | Fat magic _ => Some magic
  end.

(** [MachO(filename)]: one header at offset zero for a thin file, one
    header per [fat_arch] entry, at that entry's offset, for a fat file. *)
Definition MachO_load (f : file) : MachO :=
  match contents f with
  | Thin cmds =>
      {| fat := None; headers := [ {| offset := 0; commands := cmds |} ] |}
  | Fat magic slices =>
      {| fat := Some magic;
         headers := (fun s => {| offset := arch_offset s.1; commands := s.2 |})
                      <$> slices |}
  end.

(** Replacing the commands of slice [k], and entry [k] of the fat table. *)
Definition set_slice (k : nat) (cs : list command) (img : image) : image :=
  match img with
  | Thin cmds => match k with O => Thin cs | S _ => Thin cmds end
  | Fat magic slices => Fat magic (alter (fun s => (s.1, cs)) k slices)
  end.

Definition set_arch (k : nat) (a : fat_arch) (img : image) : image :=
  match img with
  | Thin cmds => Thin cmds
  | Fat magic slices => Fat magic (alter (fun s => (a, s.2)) k slices)
  end.

Definition store_command (k i : nat) (c : command) (f : file) : file :=
  match image_slices (contents f) !! k with
  | Some cs =>
      {| file_size := file_size f;
         contents := set_slice k (<[i := c]> cs) (contents f) |}
  | None => f
  end.

Definition store_arch (k : nat) (a : fat_arch) (f : file) : file :=
  {| file_size := file_size f; contents := set_arch k a (contents f) |}.

(* ===================================================================== *)
(** * File operations: a state and exception monad *)
(* ===================================================================== *)

(** A computation runs on the state of the file named [filename] and ends
    in an exception or a value; the state it leaves is kept in both
    cases. *)
Definition IO (A : Type) : Type := world -> (exn + A) * world.

Definition ret {A : Type} (a : A) : IO A := fun w => (inr a, w).

Definition raise {A : Type} (e : exn) : IO A := fun w => (inl e, w).

Definition bind {A B : Type} (m : IO A) (k : A -> IO B) : IO B :=
  fun w =>
    match m w with
    | (inl e, w') => (inl e, w')
    | (inr a, w') => k a w'
    end.

Declare Scope io_scope.
Delimit Scope io_scope with io.
Notation "x <- m ;; k" := (bind m (fun x => k))
  (at level 100, m at next level, k at level 200, right associativity,
   only parsing) : io_scope.
Notation "m ;; k" := (bind m (fun _ => k))
  (at level 100, k at level 200, right associativity, only parsing) : io_scope.

(** [os.path.getsize(filename)]. *)
Definition getsize : IO Z := fun w => (inr (file_size (disk w)), w).

(** [MachO(filename)]. *)
Definition MachO_open : IO MachO := fun w => (inr (MachO_load (disk w)), w).

(** Reading the file through an open handle. *)
Definition read_disk : IO file := fun w => (inr (disk w), w).

(** One structure written through an open handle: the event is recorded
    and the decoded content updated. *)
Definition fp_write (e : io_event) (upd : file -> file) : IO unit :=
  fun w => (inr tt, {| disk := upd (disk w); written := written w ++ [e] |}).

(* ===================================================================== *)
(** * Encoding of the fields the module assigns *)
(* ===================================================================== *)

(** [strsize] is a [p_uint32], [filesize] a [p_uint64]; [size] is a
    [p_uint32] in [fat_arch] and a [p_uint64] in [fat_arch64].  Assigning
    to such a field keeps the Python integer; [to_fileobj] packs it with
    [struct.pack], which raises [struct.error] outside the field's range.
    The fields the module never assigns are written back as decoded. *)
Definition fits_uint32 (z : Z) : bool := (0 <=? z) && (z <? 2 ^ 32).
Definition fits_uint64 (z : Z) : bool := (0 <=? z) && (z <? 2 ^ 64).

Definition pack_ok (c : command) : bool :=
  match c with
  | Segment64 seg => fits_uint64 (filesize seg)
  | Symtab sym => fits_uint32 (strsize sym)
  | CodeSignature _ => true
  | OtherCommand _ _ => true
  end.

Definition pack_arch_ok (magic : fat_magic) (a : fat_arch) : bool :=
  match magic with
  | FAT_MAGIC => fits_uint32 (arch_size a)
  | FAT_MAGIC_64 => fits_uint64 (arch_size a)
  end.

Local Open Scope io_scope.

(** [MachOHeader.write]: the Mach-O header, then every load command in
    order. *)
Fixpoint write_commands (k i : nat) (cmds : list command) : IO unit :=
  match cmds with
  | [] => ret tt
  | c :: rest =>
      if pack_ok c
      then fp_write (WriteCommand k i) (store_command k i c) ;;
           write_commands k (S i) rest
      else raise StructError
  end.

Definition header_write (k : nat) (h : MachOHeader) : IO unit :=
  fp_write (WriteMachHeader k) id ;;
  write_commands k 0 (commands h).

Fixpoint write_headers (k : nat) (hs : list MachOHeader) : IO unit :=
  match hs with
  | [] => ret tt
  | h :: rest => header_write k h ;; write_headers (S k) rest
  end.

(** [executable.write(fp)]: every header of the executable. *)
Definition MachO_write (executable : MachO) : IO unit :=
  write_headers 0 (headers executable).

(** [for arch in archs: arch.to_fileobj(fp)]. *)
Fixpoint write_archs (magic : fat_magic) (i : nat) (archs : list fat_arch) : IO unit :=
  match archs with
  | [] => ret tt
  | a :: rest =>
      if pack_arch_ok magic a
      then fp_write (WriteFatArch i) (store_arch i a) ;;
           write_archs magic (S i) rest
      else raise StructError
  end.

(* ===================================================================== *)
(** * fix_exe_for_code_signing (lines 71-174) *)
(* ===================================================================== *)

(** [LC_..] comparison on the kind of a command. *)
Definition kind_is (k : lc_kind) (c : command) : bool := bool_decide (cmd c = k).

(** The 16-byte, zero padded segment name. *)
Definition NUL : ascii := "000"%char.

Definition __LINKEDIT_NAME : string :=
  "__LINKEDIT" +:+ string_of_list_ascii [NUL; NUL; NUL; NUL; NUL; NUL].

(** [cmd[0].cmd == LC_SEGMENT_64 and cmd[1].segname == __LINKEDIT_NAME] *)
Definition is_linkedit (c : command) : bool :=
  kind_is LC_SEGMENT_64 c &&
  match c with
  | Segment64 seg => String.eqb (segname seg) __LINKEDIT_NAME
  | _ => false
  end.

(** A list comprehension over [header.commands] yields references to the
    commands it keeps; each is modelled by the command together with its
    position in [header.commands]. *)
Fixpoint select_from (n : nat) (p : command -> bool) (cmds : list command)
  : list (nat * command) :=
  match cmds with
  | [] => []
  | c :: rest =>
      if p c then (n, c) :: select_from (S n) p rest
      else select_from (S n) p rest
  end.

Definition select (p : command -> bool) (cmds : list command) : list (nat * command) :=
  select_from 0 p cmds.

(** The two structures the function goes on to modify. *)
Record located : Type := {
  seg_index : nat;
  linkedit_seg : segment_command_64;
  sym_index : nat;
  symtab_sec : symtab_command
}.

Definition msg_signed : string := "Executable contains code signature!".
Definition msg_linkedit : string := "Expected exactly one __LINKEDIT segment!".
Definition msg_symtab : string := "Expected exactly one SYMTAB section!".
Definition msg_sanity : string := "Sanity check failed!".

(** Lines 105-126: the four assertions on the chosen slice, in the order of
    the source, and the two structures taken from the one-element lists
    ([linkedit_seg[0][1]], [symtab_sec[0][1]]).  The branches that return
    [IndexError] are not reached: after its assertion each list has one
    element, of the shape its comprehension selects. *)
Definition validate_slice (header : MachOHeader) : exn + located :=
  let sign_sec := select (kind_is LC_CODE_SIGNATURE) (commands header) in
  if negb (length sign_sec =? 0)%nat then inl (AssertionError msg_signed) else
  let linkedit_seg := select is_linkedit (commands header) in
  if negb (length linkedit_seg =? 1)%nat then inl (AssertionError msg_linkedit) else
  match linkedit_seg with
  | (i, Segment64 linkedit_seg) :: _ =>
      let symtab_sec := select (kind_is LC_SYMTAB) (commands header) in
      if negb (length symtab_sec =? 1)%nat then inl (AssertionError msg_symtab) else
      match symtab_sec with
      | (j, Symtab symtab_sec) :: _ =>
          if negb (fileoff linkedit_seg + filesize linkedit_seg
                   =? stroff symtab_sec + strsize symtab_sec)
          then inl (AssertionError msg_sanity)
          else inr {| seg_index := i; linkedit_seg := linkedit_seg;
                      sym_index := j; symtab_sec := symtab_sec |}
      | _ => inl IndexError
      end
  | _ => inl IndexError
  end.

(** Lines 130-132. *)
Definition old_file_size (header : MachOHeader) (loc : located) : Z :=
  offset header + fileoff (linkedit_seg loc) + filesize (linkedit_seg loc).

Definition delta (file_size : Z) (header : MachOHeader) (loc : located) : Z :=
  file_size - old_file_size header loc.

(** Lines 134-136: the two assignments, made on the structures held in
    [header.commands]. *)
Definition reconcile (file_size : Z) (header : MachOHeader) (loc : located)
  : list command :=
  let delta := delta file_size header loc in
  let cmds :=
    <[sym_index loc :=
        Symtab (set_strsize (strsize (symtab_sec loc) + delta) (symtab_sec loc))]>
      (commands header) in
  <[seg_index loc :=
      Segment64 (set_filesize (filesize (linkedit_seg loc) + delta) (linkedit_seg loc))]>
    cmds.

(** Lines 153-174: the fat header and the table of [fat_arch] entries are
    read again from the file, the size of the last entry is set, and all of
    it is written back.  A magic that is neither fat magic leaves [archs]
    unbound. *)
Definition rewrite_fat_header (file_size : Z) : IO unit :=
  f <- read_disk ;;
  match image_fat (contents f) with
  | None => raise NameError
  | Some magic =>
      let archs := image_archs (contents f) in
      match last archs with
      | None => raise IndexError
      | Some arch =>
          let archs :=
            <[pred (length archs) :=
                set_arch_size (file_size - arch_offset arch) arch]> archs in
          fp_write WriteFatHeader id ;;
          write_archs magic 0 archs
      end
  end.

(** The function: the size of the file and the decoded executable (lines
    97-103), the checks on the last header (105-126), the two assignments
    (130-136), the write of every header (148-149) and, for a fat binary,
    of the fat header (153-174). *)
Definition fix_exe_for_code_signing : IO unit :=
  file_size <- getsize ;;
  executable <- MachO_open ;;
  match last (headers executable) with
  | None => raise IndexError
  | Some header =>
      match validate_slice header with
      | inl e => raise e
      | inr loc =>
          let header' := set_commands (reconcile file_size header loc) header in
          let executable :=
            {| fat := fat executable;
               headers := <[pred (length (headers executable)) := header']>
                            (headers executable) |} in
          MachO_write executable ;;
          match fat executable with
          | Some _ => rewrite_fat_header file_size
          | None => ret tt
          end
      end
  end.

Local Close Scope io_scope.

(* ===================================================================== *)
(** * Scenarios *)
(* ===================================================================== *)

Module Scenario.

Definition text : segment_command_64 :=
  {| segname := "__TEXT"; vmaddr := 4294967296; vmsize := 16384;
     fileoff := 0; filesize := 16384; maxprot := 5; initprot := 5;
     nsects := 2; flags := 0 |}.

(** The last segment of a slice declared to end at byte 100000. *)
Definition linkedit : segment_command_64 :=
  {| segname := __LINKEDIT_NAME; vmaddr := 4294983680; vmsize := 16384;
     fileoff := 95000; filesize := 5000; maxprot := 1; initprot := 1;
     nsects := 0; flags := 0 |}.

(** Its string table: the last 400 bytes of the segment. *)
Definition symtab : symtab_command :=
  {| symoff := 95000; nsyms := 64; stroff := 99600; strsize := 400 |}.

Definition signature : linkedit_data_command :=
  {| dataoff := 100000; datasize := 512 |}.

Definition unsigned_cmds : list command :=
  [Segment64 text; Segment64 linkedit; Symtab symtab; OtherCommand 36 []].

(** A signed slice: the signature follows the string table and the
    segment extends over it. *)
Definition signed_linkedit : segment_command_64 := set_filesize 5512 linkedit.

Definition signed_cmds : list command :=
  [Segment64 text; Segment64 signed_linkedit; Symtab symtab;
   CodeSignature signature].

(** A signed slice without a [__LINKEDIT] segment. *)
Definition signed_bare_cmds : list command :=
  [Segment64 text; Symtab symtab; CodeSignature signature].

(** Two segments of the same name. *)
Definition twice_linkedit_cmds : list command :=
  [Segment64 text; Segment64 linkedit; Segment64 linkedit; Symtab symtab].

(** No symbol table. *)
Definition no_symtab_cmds : list command :=
  [Segment64 text; Segment64 linkedit].


Definition thin (size : Z) (cmds : list command) : world :=
  {| disk := {| file_size := size; contents := Thin cmds |}; written := [] |}.

Definition arch1 : fat_arch :=
  {| cputype := 16777223; cpusubtype := 3; arch_offset := 16384;
     arch_size := 100000; align := 14 |}.

Definition arch2 : fat_arch :=
  {| cputype := 16777228; cpusubtype := 0; arch_offset := 131072;
     arch_size := 100000; align := 14 |}.

(** Two slices of 100000 bytes; the second one ends at byte 231072. *)
Definition fat2 (size : Z) : world :=
  {| disk := {| file_size := size;
                contents := Fat FAT_MAGIC [(arch1, unsigned_cmds);
                                           (arch2, unsigned_cmds)] |};
     written := [] |}.

End Scenario.

(* ===================================================================== *)
(** * Outcomes *)
(* ===================================================================== *)

(** The slice the function works on. *)
Definition last_slice (f : file) : option MachOHeader :=
  last (headers (MachO_load f)).

(** The number of commands of a slice that satisfy [p]. *)
Definition count (p : command -> bool) (cmds : list command) : nat :=
  length (List.filter p cmds).

(** The call fails with [e] and has not touched the file. *)
Definition rejected_with (e : exn) (w : world) : Prop :=
  fix_exe_for_code_signing w = (inl e, w).

(** The call returns normally and leaves the state [w']. *)
Definition completes (w w' : world) : Prop :=
  fix_exe_for_code_signing w = (inr tt, w').

(** The check of line 125. *)
Definition contiguous (seg : segment_command_64) (sym : symtab_command) : Prop :=
  fileoff seg + filesize seg = stroff sym + strsize sym.

(** Every size on disk fits the field that holds it. *)
Definition encodable (f : file) : bool :=
  forallb (forallb pack_ok) (image_slices (contents f)) &&
  match image_fat (contents f) with
  | Some magic => forallb (pack_arch_ok magic) (image_archs (contents f))
  | None => true
  end.

(** The content the file has once both write passes are through. *)
Definition patch_image (file_size : Z) (cmds' : list command) (img : image) : image :=
  match img with
  | Thin _ => Thin cmds'
  | Fat magic slices =>
      Fat magic
        (alter (fun s => (set_arch_size (file_size - arch_offset s.1) s.1, cmds'))
               (pred (length slices)) slices)
  end.

Definition patched (f : file) (header : MachOHeader) (loc : located) : file :=
  {| file_size := file_size f;
     contents := patch_image (file_size f)
                             (reconcile (file_size f) header loc) (contents f) |}.

(** Position [i] of a selection is made to hold [c']. *)
Definition retarget (i : nat) (c' : command) (e : nat * command) : nat * command :=
  if decide (e.1 = i) then (e.1, c') else e.

(** What the four assertions establish. *)
Record passes (h : MachOHeader) (loc : located) : Prop := {
  passes_unsigned : select (kind_is LC_CODE_SIGNATURE) (commands h) = [];
  passes_linkedit :
    select is_linkedit (commands h)
    = [(seg_index loc, Segment64 (linkedit_seg loc))];
  passes_symtab :
    select (kind_is LC_SYMTAB) (commands h)
    = [(sym_index loc, Symtab (symtab_sec loc))];
  passes_contiguous : contiguous (linkedit_seg loc) (symtab_sec loc)
}.

(** The structures as the two assignments leave them. *)
Definition grown (d : Z) (loc : located) : located :=
  {| seg_index := seg_index loc;
     linkedit_seg := set_filesize (filesize (linkedit_seg loc) + d) (linkedit_seg loc);
     sym_index := sym_index loc;
     symtab_sec := set_strsize (strsize (symtab_sec loc) + d) (symtab_sec loc) |}.

(** Size, magic and fat table of a file are the same in both states. *)
Definition same_table (f f' : file) : Prop :=
  file_size f' = file_size f /\
  image_fat (contents f') = image_fat (contents f) /\
  image_archs (contents f') = image_archs (contents f).

(** The index of the last slice. *)
Definition last_index (f : file) : nat := pred (length (image_slices (contents f))).

(** The headers handed to [executable.write]: those of the file, the last
    one with the reconciled commands. *)
Definition patched_headers (f : file) (header : MachOHeader) (loc : located)
  : list MachOHeader :=
  <[last_index f := set_commands (reconcile (file_size f) header loc) header]>
    (headers (MachO_load f)).

(** ** Shapes of paths *)

(** No slash occurs in [s]. *)
Definition slash_free (s : string) : bool :=
  forallb (fun c => negb (Prefix.is_sep c)) (list_ascii_of_string s).

(** [s] is not empty and its last character is not a slash. *)
Definition ends_in_name (s : string) : bool :=
  match last (list_ascii_of_string s) with
  | Some c => negb (Prefix.is_sep c)
  | None => false
  end.

(** ** Further scenarios *)

Module Cases.



End Cases.

(** Running one step of a computation. *)
Ltac run_bind := unfold bind, fp_write, ret, raise; cbn [disk written].

(* ===================================================================== *)
(** * List comprehensions over the load commands *)
(* ===================================================================== *)

Section Select.
Variable p : command -> bool.

Lemma select_from_length n cmds :
  length (select_from n p cmds) = count p cmds.
Proof.
  unfold count. revert n.
  induction cmds as [|c r IH]; intros n; simpl; [done|].
  destruct (p c); simpl; by rewrite IH.
Qed.

Lemma select_from_lookup n cmds j c :
  (j, c) ∈ select_from n p cmds ->
  (n <= j)%nat /\ cmds !! (j - n)%nat = Some c /\ p c = true.
Proof.
  revert n. induction cmds as [|c0 r IH]; intros n; simpl.
  - intros H. by apply elem_of_nil in H.
  - destruct (p c0) eqn:Hp.
    + rewrite elem_of_cons. intros [Heq | Hin].
      * inversion Heq; subst. replace (n - n)%nat with 0%nat by lia. done.
      * apply IH in Hin as (Hle & Hl & Hpc).
        split; [lia|]. split; [|done].
        replace (j - n)%nat with (S (j - S n)) by lia. done.
    + intros Hin. apply IH in Hin as (Hle & Hl & Hpc).
      split; [lia|]. split; [|done].
      replace (j - n)%nat with (S (j - S n)) by lia. done.
Qed.

Lemma select_lookup cmds j c :
  (j, c) ∈ select p cmds -> cmds !! j = Some c /\ p c = true.
Proof.
  intros H. apply select_from_lookup in H as (_ & Hl & Hp).
  by replace (j - 0)%nat with j in Hl by lia.
Qed.

Lemma retarget_above i c' (l : list (nat * command)) :
  (forall e, e ∈ l -> (i < e.1)%nat) -> retarget i c' <$> l = l.
Proof.
  induction l as [|e l IH]; intros H; [done|].
  rewrite fmap_cons, IH by (intros e' He'; apply H; by right).
  unfold retarget. destruct (decide (e.1 = i)) as [Heq|]; [|done].
  specialize (H e ltac:(by left)). lia.
Qed.

Lemma select_from_insert n i c c' cmds :
  cmds !! i = Some c -> p c' = p c ->
  select_from n p (<[i := c']> cmds)
  = retarget (n + i) c' <$> select_from n p cmds.
Proof.
  revert n i. induction cmds as [|c0 r IH]; intros n i Hl Hp; [done|].
  destruct i as [|i]; simpl in *.
  - inversion Hl; subst c0. rewrite Hp.
    assert (Hr : retarget (n + 0) c' <$> select_from (S n) p r
                 = select_from (S n) p r).
    { apply retarget_above. intros [j x] Hin.
      apply select_from_lookup in Hin as (Hle & _). simpl. lia. }
    destruct (p c); rewrite ?fmap_cons, Hr; [|done].
    unfold retarget. cbn [fst].
    destruct (decide (n = (n + 0)%nat)); [done|lia].
  - rewrite (IH (S n) i Hl Hp).
    replace (S n + i)%nat with (n + S i)%nat by lia.
    destruct (p c0); rewrite ?fmap_cons; [|done].
    unfold retarget. cbn [fst].
    destruct (decide (n = (n + S i)%nat)); [lia|done].
Qed.

Lemma select_insert i c c' cmds :
  cmds !! i = Some c -> p c' = p c ->
  select p (<[i := c']> cmds) = retarget i c' <$> select p cmds.
Proof. intros Hl Hp. unfold select. by rewrite (select_from_insert 0 i c c'). Qed.

Lemma select_length cmds : length (select p cmds) = count p cmds.
Proof. apply select_from_length. Qed.
End Select.

(* ===================================================================== *)
(** * The validator *)
(* ===================================================================== *)

Lemma is_linkedit_shape c : is_linkedit c = true -> exists seg, c = Segment64 seg.
Proof. destruct c; try discriminate. eauto. Qed.

Lemma is_symtab_shape c : kind_is LC_SYMTAB c = true -> exists sym, c = Symtab sym.
Proof. destruct c; try discriminate. eauto. Qed.

Lemma validate_slice_passes h loc :
  validate_slice h = inr loc -> passes h loc.
Proof.
  unfold validate_slice.
  destruct (select (kind_is LC_CODE_SIGNATURE) (commands h)) as [|? ?] eqn:Hsig;
    [|discriminate].
  cbn [length Nat.eqb negb].
  destruct (select is_linkedit (commands h)) as [|[i c] [|? ?]] eqn:Hseg;
    try discriminate.
  cbn [length Nat.eqb negb].
  destruct (is_linkedit_shape c) as [seg ->].
  { eapply (select_lookup is_linkedit (commands h) i). rewrite Hseg. by left. }
  destruct (select (kind_is LC_SYMTAB) (commands h)) as [|[j c] [|? ?]] eqn:Hsym;
    try discriminate.
  cbn [length Nat.eqb negb].
  destruct (is_symtab_shape c) as [sym ->].
  { eapply (select_lookup (kind_is LC_SYMTAB) (commands h) j). rewrite Hsym. by left. }
  destruct (fileoff seg + filesize seg =? stroff sym + strsize sym) eqn:Heq;
    [|discriminate].
  cbn [negb]. intros [= <-]. split; try done.
  cbn. unfold contiguous. by apply Z.eqb_eq.
Qed.

Lemma passes_validate_slice h loc :
  passes h loc -> validate_slice h = inr loc.
Proof.
  intros [Hsig Hseg Hsym Hc]. unfold validate_slice.
  rewrite Hsig, Hseg, Hsym. cbn [length Nat.eqb negb].
  unfold contiguous in Hc. apply Z.eqb_eq in Hc. rewrite Hc. cbn [negb].
  by destruct loc.
Qed.

Section Passes.
Context {h : MachOHeader} {loc : located} (Hp : passes h loc).

Lemma passes_seg_lookup :
  commands h !! seg_index loc = Some (Segment64 (linkedit_seg loc)).
Proof.
  apply (select_lookup is_linkedit). rewrite (passes_linkedit _ _ Hp). by left.
Qed.

Lemma passes_sym_lookup :
  commands h !! sym_index loc = Some (Symtab (symtab_sec loc)).
Proof.
  apply (select_lookup (kind_is LC_SYMTAB)).
  rewrite (passes_symtab _ _ Hp). by left.
Qed.

Lemma passes_indices : seg_index loc <> sym_index loc.
Proof.
  intros Heq. pose proof passes_seg_lookup as H1.
  pose proof passes_sym_lookup as H2. rewrite Heq in H1. congruence.
Qed.

Lemma passes_is_linkedit : is_linkedit (Segment64 (linkedit_seg loc)) = true.
Proof.
  apply (select_lookup is_linkedit (commands h) (seg_index loc)).
  rewrite (passes_linkedit _ _ Hp). by left.
Qed.
End Passes.

Lemma reconcile_grown fs h loc :
  reconcile fs h loc
  = <[seg_index loc := Segment64 (linkedit_seg (grown (delta fs h loc) loc))]>
      (<[sym_index loc := Symtab (symtab_sec (grown (delta fs h loc) loc))]>
         (commands h)).
Proof. reflexivity. Qed.

Lemma select_reconcile p fs h loc :
  passes h loc ->
  (forall s v, p (Segment64 (set_filesize v s)) = p (Segment64 s)) ->
  (forall s v, p (Symtab (set_strsize v s)) = p (Symtab s)) ->
  select p (reconcile fs h loc)
  = retarget (seg_index loc) (Segment64 (linkedit_seg (grown (delta fs h loc) loc)))
      <$> (retarget (sym_index loc) (Symtab (symtab_sec (grown (delta fs h loc) loc)))
             <$> select p (commands h)).
Proof.
  intros Hp Hseg Hsym. rewrite reconcile_grown.
  rewrite (select_insert p _ (Segment64 (linkedit_seg loc))).
  - f_equal. apply (select_insert p _ (Symtab (symtab_sec loc))).
    + apply (passes_sym_lookup Hp).
    + apply Hsym.
  - rewrite list_lookup_insert_ne by (apply not_eq_sym, (passes_indices Hp)).
    apply (passes_seg_lookup Hp).
  - apply Hseg.
Qed.

(** A slice that passed the checks passes them again once patched. *)
Lemma passes_reconcile fs h loc :
  passes h loc ->
  passes (set_commands (reconcile fs h loc) h) (grown (delta fs h loc) loc).
Proof.
  intros Hp. pose proof (passes_indices Hp) as Hne.
  split; cbn [commands set_commands].
  - rewrite select_reconcile by done. by rewrite (passes_unsigned _ _ Hp).
  - rewrite select_reconcile by done. rewrite (passes_linkedit _ _ Hp).
    rewrite !fmap_cons, !fmap_nil. unfold retarget. cbn [fst].
    destruct (decide (seg_index loc = sym_index loc)); [done|]. cbn [fst].
    by destruct (decide (seg_index loc = seg_index loc)).
  - rewrite select_reconcile by done. rewrite (passes_symtab _ _ Hp).
    rewrite !fmap_cons, !fmap_nil. unfold retarget. cbn [fst].
    destruct (decide (sym_index loc = sym_index loc)); [|done]. cbn [fst].
    by destruct (decide (sym_index loc = seg_index loc)).
  - pose proof (passes_contiguous _ _ Hp) as Hc.
    unfold contiguous in *. cbn. lia.
Qed.

(* ===================================================================== *)
(** * The decoded view of an image *)
(* ===================================================================== *)

Lemma pairs_ext {A B : Type} (l k : list (A * B)) :
  l.*1 = k.*1 -> l.*2 = k.*2 -> l = k.
Proof.
  revert k. induction l as [|[a b] l IH]; intros [|[a' b'] k]; try done.
  rewrite !fmap_cons. cbn [fst snd]. intros [= -> H1] [= -> H2].
  f_equal. by apply IH.
Qed.

(** An image is determined by its magic, its fat table and its slices. *)
Lemma image_ext (a b : image) :
  image_fat a = image_fat b ->
  image_archs a = image_archs b ->
  image_slices a = image_slices b ->
  a = b.
Proof.
  destruct a as [ca|ma sa], b as [cb|mb sb]; cbn; try discriminate.
  - by intros _ _ [= ->].
  - intros [= ->] H1 H2. f_equal. by apply pairs_ext.
Qed.

Lemma file_ext (f g : file) :
  file_size f = file_size g -> contents f = contents g -> f = g.
Proof. destruct f, g; cbn; by intros -> ->. Qed.

Lemma alter_snd_fst {A B : Type} (g : A * B -> B) k (l : list (A * B)) :
  (alter (fun s => (s.1, g s)) k l).*1 = l.*1.
Proof.
  revert k. induction l as [|x l IH]; intros [|k]; try done.
  cbn. f_equal. apply IH.
Qed.

Lemma alter_fst_snd {A B : Type} (g : A * B -> A) k (l : list (A * B)) :
  (alter (fun s => (g s, s.2)) k l).*2 = l.*2.
Proof.
  revert k. induction l as [|x l IH]; intros [|k]; try done.
  cbn. f_equal. apply IH.
Qed.

Lemma alter_const_snd {A B : Type} (g : A * B -> A) (b : B) k (l : list (A * B)) :
  (alter (fun s => (g s, b)) k l).*2 = <[k := b]> (l.*2).
Proof.
  revert k. induction l as [|x l IH]; intros [|k]; try done.
  cbn. f_equal. apply IH.
Qed.

Lemma alter_const_fst {A B : Type} (a : A) (g : A * B -> B) k (l : list (A * B)) :
  (alter (fun s => (a, g s)) k l).*1 = <[k := a]> (l.*1).
Proof.
  revert k. induction l as [|x l IH]; intros [|k]; try done.
  cbn. f_equal. apply IH.
Qed.

Lemma alter_fst {A B : Type} (g : A -> A) (h : A * B -> B) k (l : list (A * B)) :
  (alter (fun s => (g s.1, h s)) k l).*1 = alter g k (l.*1).
Proof.
  revert k. induction l as [|x l IH]; intros [|k]; try done.
  cbn. f_equal. apply IH.
Qed.

Lemma image_slices_set_slice k cs img :
  image_slices (set_slice k cs img) = <[k := cs]> (image_slices img).
Proof.
  destruct img as [cmds|magic slices]; cbn.
  - by destruct k.
  - apply (alter_const_snd fst).
Qed.

Lemma image_archs_set_slice k cs img :
  image_archs (set_slice k cs img) = image_archs img.
Proof.
  destruct img as [cmds|magic slices]; cbn.
  - by destruct k.
  - apply (alter_snd_fst (fun _ => cs)).
Qed.

Lemma image_fat_set_slice k cs img :
  image_fat (set_slice k cs img) = image_fat img.
Proof. destruct img; [by destruct k | done]. Qed.

Lemma image_slices_set_arch k a img :
  image_slices (set_arch k a img) = image_slices img.
Proof.
  destruct img as [cmds|magic slices]; cbn; [done|].
  apply (alter_fst_snd (fun _ => a)).
Qed.

Lemma image_archs_set_arch k a img :
  image_archs (set_arch k a img) = <[k := a]> (image_archs img).
Proof.
  destruct img as [cmds|magic slices]; cbn; [done|].
  apply (alter_const_fst a snd).
Qed.

Lemma image_fat_set_arch k a img :
  image_fat (set_arch k a img) = image_fat img.
Proof. by destruct img. Qed.

Lemma MachO_load_commands f :
  commands <$> headers (MachO_load f) = image_slices (contents f).
Proof.
  unfold MachO_load. destruct (contents f) as [cmds|magic slices]; cbn; [done|].
  rewrite <- list_fmap_compose. by apply list_fmap_ext.
Qed.

Lemma MachO_load_fat f : fat (MachO_load f) = image_fat (contents f).
Proof. unfold MachO_load. by destruct (contents f). Qed.

Lemma MachO_load_length f :
  length (headers (MachO_load f)) = length (image_slices (contents f)).
Proof. by rewrite <- MachO_load_commands, length_fmap. Qed.

(** In a fat file the offset of a header is that of its [fat_arch] entry. *)
Lemma MachO_load_offsets f magic :
  image_fat (contents f) = Some magic ->
  offset <$> headers (MachO_load f) = arch_offset <$> image_archs (contents f).
Proof.
  unfold MachO_load. destruct (contents f) as [cmds|m slices]; cbn; [done|].
  intros _. rewrite <- !list_fmap_compose. by apply list_fmap_ext.
Qed.

Lemma same_table_refl f : same_table f f.
Proof. by repeat split. Qed.

Lemma same_table_trans f g h : same_table f g -> same_table g h -> same_table f h.
Proof.
  intros (H1 & H2 & H3) (H4 & H5 & H6). repeat split; congruence.
Qed.

(* ===================================================================== *)
(** * The two write passes *)
(* ===================================================================== *)

Lemma store_command_slices k i c f cs :
  image_slices (contents f) !! k = Some cs ->
  image_slices (contents (store_command k i c f))
  = <[k := <[i := c]> cs]> (image_slices (contents f)).
Proof.
  intros H. unfold store_command. rewrite H. cbn.
  apply image_slices_set_slice.
Qed.

Lemma store_command_table k i c f : same_table f (store_command k i c f).
Proof.
  unfold store_command, same_table.
  destruct (image_slices (contents f) !! k); cbn; [|done].
  by rewrite image_fat_set_slice, image_archs_set_slice.
Qed.

(** Whether a write pass raises does not depend on the file. *)
Lemma write_commands_outcome k i cs w :
  (write_commands k i cs w).1
  = if forallb pack_ok cs then inr tt else inl StructError.
Proof.
  revert i w. induction cs as [|c cs IH]; intros i w; [done|].
  cbn [write_commands forallb]. destruct (pack_ok c); [|done].
  run_bind. apply IH.
Qed.

Lemma write_commands_ok k cs : forall i w pre olds,
  image_slices (contents (disk w)) !! k = Some (pre ++ olds) ->
  length pre = i -> length olds = length cs ->
  forallb pack_ok cs = true ->
  exists w', write_commands k i cs w = (inr tt, w') /\
             same_table (disk w) (disk w') /\
             image_slices (contents (disk w'))
             = <[k := pre ++ cs]> (image_slices (contents (disk w))).
Proof.
  induction cs as [|c cs IH]; intros i w pre olds Hk Hi Hlen Hpack.
  - destruct olds; [|done]. exists w. split; [done|].
    split; [apply same_table_refl|]. by rewrite list_insert_id.
  - destruct olds as [|o olds]; [done|].
    cbn [forallb] in Hpack. apply andb_prop in Hpack as [Hc Hcs].
    cbn [write_commands]. rewrite Hc. run_bind.
    set (w1 := {| disk := store_command k i c (disk w);
                  written := written w ++ [WriteCommand k i] |}).
    assert (Hs1 : image_slices (contents (disk w1))
                  = <[k := (pre ++ [c]) ++ olds]> (image_slices (contents (disk w)))).
    { cbn [disk w1]. rewrite (store_command_slices _ _ _ _ _ Hk). f_equal.
      rewrite <- Hi, insert_app_r_alt, Nat.sub_diag by done.
      by rewrite <- app_assoc. }
    destruct (IH (S i) w1 (pre ++ [c]) olds) as (w' & Hrun & Ht & Hs).
    + rewrite Hs1. apply list_lookup_insert_eq. by eapply lookup_lt_Some.
    + rewrite length_app. cbn. lia.
    + cbn in Hlen. lia.
    + done.
    + exists w'. split; [done|]. split.
      * eapply same_table_trans; [|exact Ht]. apply store_command_table.
      * rewrite Hs, Hs1, list_insert_insert_eq. by rewrite <- app_assoc.
Qed.

Lemma write_headers_outcome k hs w :
  (write_headers k hs w).1
  = if forallb (fun h => forallb pack_ok (commands h)) hs
    then inr tt else inl StructError.
Proof.
  revert k w. induction hs as [|h hs IH]; intros k w; [done|].
  cbn [write_headers forallb]. unfold header_write. run_bind.
  match goal with |- context [write_commands k 0 (commands h) ?w1] =>
    pose proof (write_commands_outcome k 0 (commands h) w1) as Ho;
    destruct (write_commands k 0 (commands h) w1) as [[e|[]] w2] end;
  cbn [fst] in Ho; destruct (forallb pack_ok (commands h)); cbn [andb fst];
  first [discriminate | congruence | apply IH].
Qed.

Lemma write_headers_ok hs : forall k w pre olds,
  image_slices (contents (disk w)) = pre ++ olds ->
  length pre = k ->
  Forall2 (fun h old => length (commands h) = length old) hs olds ->
  forallb (fun h => forallb pack_ok (commands h)) hs = true ->
  exists w', write_headers k hs w = (inr tt, w') /\
             same_table (disk w) (disk w') /\
             image_slices (contents (disk w')) = pre ++ (commands <$> hs).
Proof.
  induction hs as [|h hs IH]; intros k w pre olds Hs Hk Hlen Hpack.
  - inversion Hlen; subst. exists w. split; [done|].
    split; [apply same_table_refl|done].
  - inversion Hlen as [|? o ? olds' Hho Hrest]; subst.
    cbn [forallb] in Hpack. apply andb_prop in Hpack as [Hh Hhs].
    cbn [write_headers]. unfold header_write. run_bind.
    set (w0 := {| disk := id (disk w);
                  written := written w ++ [WriteMachHeader (length pre)] |}).
    destruct (write_commands_ok (length pre) (commands h) 0 w0 [] o)
      as (w1 & Hrun1 & Ht1 & Hs1); try done.
    { cbn. rewrite Hs. by rewrite list_lookup_middle. }
    rewrite Hrun1.
    assert (Hs1' : image_slices (contents (disk w1)) = (pre ++ [commands h]) ++ olds').
    { rewrite Hs1. cbn [w0 disk id app]. rewrite Hs.
      rewrite insert_app_r_alt, Nat.sub_diag by done.
      by rewrite <- app_assoc. }
    destruct (IH (S (length pre)) w1 (pre ++ [commands h]) olds')
      as (w2 & Hrun2 & Ht2 & Hs2); try done.
    { rewrite length_app. cbn. lia. }
    exists w2. split; [done|]. split.
    + eapply same_table_trans; [exact Ht1|exact Ht2].
    + rewrite Hs2, fmap_cons. by rewrite <- app_assoc.
Qed.

Lemma write_archs_outcome magic i archs w :
  (write_archs magic i archs w).1
  = if forallb (pack_arch_ok magic) archs then inr tt else inl StructError.
Proof.
  revert i w. induction archs as [|a archs IH]; intros i w; [done|].
  cbn [write_archs forallb]. destruct (pack_arch_ok magic a); [|done].
  run_bind. apply IH.
Qed.

Lemma write_archs_ok magic archs : forall i w pre olds,
  image_archs (contents (disk w)) = pre ++ olds ->
  length pre = i -> length olds = length archs ->
  forallb (pack_arch_ok magic) archs = true ->
  exists w', write_archs magic i archs w = (inr tt, w') /\
             file_size (disk w') = file_size (disk w) /\
             image_fat (contents (disk w')) = image_fat (contents (disk w)) /\
             image_slices (contents (disk w')) = image_slices (contents (disk w)) /\
             image_archs (contents (disk w')) = pre ++ archs.
Proof.
  induction archs as [|a archs IH]; intros i w pre olds Hs Hi Hlen Hpack.
  - destruct olds; [|done]. by exists w.
  - destruct olds as [|o olds]; [done|].
    cbn [forallb] in Hpack. apply andb_prop in Hpack as [Ha Has].
    cbn [write_archs]. rewrite Ha. run_bind.
    set (w1 := {| disk := store_arch i a (disk w);
                  written := written w ++ [WriteFatArch i] |}).
    destruct (IH (S i) w1 (pre ++ [a]) olds) as (w' & Hrun & Hsz & Hfat & Hsl & Har).
    + cbn [w1 disk store_arch contents]. rewrite image_archs_set_arch, Hs.
      rewrite <- Hi, insert_app_r_alt, Nat.sub_diag by done.
      by rewrite <- app_assoc.
    + rewrite length_app. cbn. lia.
    + cbn in Hlen. lia.
    + done.
    + exists w'. split; [done|].
      cbn [w1 disk store_arch contents file_size] in Hsz, Hfat, Hsl.
      rewrite image_fat_set_arch in Hfat. rewrite image_slices_set_arch in Hsl.
      repeat split; try done. by rewrite Har, <- app_assoc.
Qed.

(* ===================================================================== *)
(** * The run of fix_exe_for_code_signing *)
(* ===================================================================== *)

Lemma alter_as_insert {A : Type} (g : A -> A) i (l : list A) x :
  l !! i = Some x -> alter g i l = <[i := g x]> l.
Proof.
  revert i. induction l as [|y l IH]; intros [|i] H; try done; cbn in *.
  - by inversion H.
  - f_equal. by apply IH.
Qed.

Lemma forallb_fmap {A B : Type} (p : B -> bool) (g : A -> B) (l : list A) :
  forallb p (g <$> l) = forallb (fun x => p (g x)) l.
Proof. induction l as [|x l IH]; [done|]. cbn. by rewrite <- IH. Qed.

Lemma image_archs_length magic f :
  image_fat (contents f) = Some magic ->
  length (image_archs (contents f)) = length (image_slices (contents f)).
Proof.
  destruct (contents f) as [|m slices]; cbn; [done|]. by rewrite !length_fmap.
Qed.

Lemma image_archs_thin f :
  image_fat (contents f) = None -> image_archs (contents f) = [].
Proof. by destruct (contents f). Qed.

Section LastSlice.
Context {f : file} {header : MachOHeader} (Hlast : last_slice f = Some header).

Lemma last_slice_header : headers (MachO_load f) !! last_index f = Some header.
Proof.
  unfold last_slice in Hlast. rewrite last_lookup in Hlast.
  unfold last_index. by rewrite <- MachO_load_length.
Qed.

Lemma last_slice_commands :
  image_slices (contents f) !! last_index f = Some (commands header).
Proof.
  rewrite <- MachO_load_commands, list_lookup_fmap, last_slice_header. done.
Qed.

Lemma last_slice_thin :
  image_fat (contents f) = None -> offset header = 0.
Proof.
  pose proof last_slice_header as H. unfold last_index, MachO_load in H.
  destruct (contents f) as [cmds|]; [|done]. cbn in H. intros _.
  by inversion H.
Qed.

Lemma last_slice_arch magic :
  image_fat (contents f) = Some magic ->
  exists arch, image_archs (contents f) !! last_index f = Some arch /\
               last (image_archs (contents f)) = Some arch /\
               arch_offset arch = offset header.
Proof.
  intros Hfat. pose proof (MachO_load_offsets f magic Hfat) as Hoff.
  pose proof last_slice_header as H.
  assert (Ho : (offset <$> headers (MachO_load f)) !! last_index f
               = Some (offset header)) by by rewrite list_lookup_fmap, H.
  rewrite Hoff, list_lookup_fmap in Ho.
  destruct (image_archs (contents f) !! last_index f) as [arch|] eqn:Ha;
    [|done].
  exists arch. split; [done|]. split; [|by inversion Ho].
  rewrite last_lookup, (image_archs_length magic) by done. exact Ha.
Qed.
End LastSlice.

Section Patched.
Context (f : file) (header : MachOHeader) (loc : located).

Lemma patched_size : file_size (patched f header loc) = file_size f.
Proof. done. Qed.

Lemma patched_fat :
  image_fat (contents (patched f header loc)) = image_fat (contents f).
Proof. unfold patched. cbn. by destruct (contents f). Qed.

Lemma patched_slices :
  image_slices (contents (patched f header loc))
  = <[last_index f := reconcile (file_size f) header loc]>
      (image_slices (contents f)).
Proof.
  unfold patched, last_index. cbn.
  destruct (contents f) as [cmds|magic slices]; cbn; [done|].
  rewrite length_fmap.
  apply (alter_const_snd
           (fun s => set_arch_size (file_size f - arch_offset s.1) s.1)).
Qed.

Lemma patched_archs :
  image_archs (contents (patched f header loc))
  = alter (fun a => set_arch_size (file_size f - arch_offset a) a)
          (last_index f) (image_archs (contents f)).
Proof.
  unfold patched, last_index. cbn.
  destruct (contents f) as [cmds|magic slices]; cbn; [done|].
  rewrite length_fmap.
  apply (alter_fst (fun a => set_arch_size (file_size f - arch_offset a) a)
                   (fun _ => reconcile (file_size f) header loc)).
Qed.
End Patched.

Lemma reconcile_length fs h loc :
  length (reconcile fs h loc) = length (commands h).
Proof. unfold reconcile. by rewrite !length_insert. Qed.

(** On a slice that passes the checks the function is its two write
    passes. *)
Lemma fix_exe_unfold w header loc :
  last_slice (disk w) = Some header ->
  validate_slice header = inr loc ->
  fix_exe_for_code_signing w
  = bind (write_headers 0 (patched_headers (disk w) header loc))
         (fun _ => match image_fat (contents (disk w)) with
                   | Some _ => rewrite_fat_header (file_size (disk w))
                   | None => ret tt
                   end) w.
Proof.
  intros Hlast Hval.
  unfold fix_exe_for_code_signing, bind at 1 2, getsize, MachO_open.
  unfold last_slice in Hlast. rewrite Hlast, Hval.
  unfold MachO_write. cbn [fat headers].
  by rewrite MachO_load_fat, MachO_load_length.
Qed.

(** A failing check ends the call with the file as it was. *)
Lemma fix_exe_rejects w header e :
  last_slice (disk w) = Some header ->
  validate_slice header = inl e ->
  fix_exe_for_code_signing w = (inl e, w).
Proof.
  intros Hlast Hval.
  unfold fix_exe_for_code_signing, bind, getsize, MachO_open.
  unfold last_slice in Hlast. by rewrite Hlast, Hval.
Qed.

(** The run on a slice that passes the checks: both write passes go
    through exactly when every size of the patched file fits its field, and
    then the file is the patched one. *)
Lemma fix_exe_run w header loc :
  last_slice (disk w) = Some header ->
  validate_slice header = inr loc ->
  if encodable (patched (disk w) header loc)
  then exists w', fix_exe_for_code_signing w = (inr tt, w') /\
                  disk w' = patched (disk w) header loc
  else exists w', fix_exe_for_code_signing w = (inl StructError, w').
Proof.
  destruct w as [f wr]. cbn [disk]. intros Hlast Hval.
  set (w := {| disk := f; written := wr |}).
  set (f' := patched f header loc).
  set (hi := last_index f).
  set (hs := <[hi := set_commands (reconcile (file_size f) header loc) header]>
               (headers (MachO_load f))).
  assert (Hrun := fix_exe_unfold w header loc Hlast Hval).
  unfold patched_headers in Hrun. cbn [disk w] in Hrun. fold hi hs in Hrun.
  assert (Hcmds : commands <$> hs = image_slices (contents f')).
  { unfold hs, f'. rewrite list_fmap_insert, MachO_load_commands, patched_slices.
    done. }
  assert (Hpack : forallb (fun h => forallb pack_ok (commands h)) hs
                  = forallb (forallb pack_ok) (image_slices (contents f'))).
  { by rewrite <- Hcmds, forallb_fmap. }
  rewrite Hrun. unfold bind. unfold encodable.
  pose proof (write_headers_outcome 0 hs w) as Hout.
  rewrite <- Hpack.
  destruct (forallb (fun h => forallb pack_ok (commands h)) hs) eqn:Hp1.
  2:{ destruct (write_headers 0 hs w) as [[e|[]] w1]; cbn in Hout; [|done].
      inversion Hout; subst. by exists w1. }
  clear Hout. cbn [andb].
  destruct (write_headers_ok hs 0 w [] (image_slices (contents f)))
    as (w1 & Hw1 & (Hsz1 & Hfat1 & Hars1) & Hsl1); try done.
  all: cbn [disk w] in *.
  { apply Forall2_same_length_lookup_2.
    - unfold hs. by rewrite length_insert, MachO_load_length.
    - intros i h old Hh Hold. unfold hs in Hh.
      destruct (decide (i = hi)) as [->|Hne].
      + rewrite list_lookup_insert_eq in Hh
          by (eapply lookup_lt_Some, (last_slice_header Hlast)).
        inversion Hh; subst h. cbn [commands set_commands].
        rewrite reconcile_length.
        pose proof (last_slice_commands Hlast) as Hc. fold hi in Hc. congruence.
      + rewrite list_lookup_insert_ne in Hh by done.
        rewrite <- MachO_load_commands, list_lookup_fmap, Hh in Hold.
        by inversion Hold. }
  rewrite Hw1. cbn [app] in Hsl1. rewrite Hcmds in Hsl1.
  unfold f'. rewrite patched_fat. fold f'.
  destruct (image_fat (contents f)) as [magic|] eqn:Hfat.
  2:{ exists w1. split; [done|]. apply file_ext; [done|].
      apply image_ext; [| |done].
      - unfold f'. by rewrite patched_fat, Hfat1.
      - unfold f'. rewrite patched_archs, Hars1.
        by rewrite (image_archs_thin f Hfat). }
  destruct (last_slice_arch Hlast magic Hfat) as (arch & Harch & Hlasta & Hoff).
  fold hi in Harch.
  assert (Hars' : image_archs (contents f')
                  = <[hi := set_arch_size (file_size f - arch_offset arch) arch]>
                      (image_archs (contents f))).
  { unfold f'. rewrite patched_archs.
    by apply (alter_as_insert
                (fun a => set_arch_size (file_size f - arch_offset a) a)). }
  unfold rewrite_fat_header, bind, read_disk.
  rewrite Hfat1, Hars1, Hlasta.
  rewrite (image_archs_length magic f Hfat). fold (last_index f). fold hi.
  rewrite <- Hars'. run_bind.
  set (w2 := {| disk := id (disk w1); written := written w1 ++ [WriteFatHeader] |}).
  pose proof (write_archs_outcome magic 0 (image_archs (contents f')) w2) as Hout.
  destruct (forallb (pack_arch_ok magic) (image_archs (contents f'))) eqn:Hp2.
  2:{ destruct (write_archs magic 0 (image_archs (contents f')) w2) as [[e|[]] w3];
        cbn in Hout; [|done].
      inversion Hout; subst. by exists w3. }
  destruct (write_archs_ok magic (image_archs (contents f')) 0 w2 []
                           (image_archs (contents f)))
    as (w3 & Hw3 & Hsz3 & Hfat3 & Hsl3 & Hars3); try done.
  { rewrite Hars'. by rewrite length_insert. }
  exists w3. split; [done|]. apply file_ext.
  - rewrite Hsz3. done.
  - apply image_ext.
    + rewrite Hfat3. cbn [w2 disk id]. unfold f'. by rewrite patched_fat, Hfat1.
    + by rewrite Hars3.
    + rewrite Hsl3. done.
Qed.

Lemma fix_exe_completes w header loc :
  last_slice (disk w) = Some header ->
  validate_slice header = inr loc ->
  encodable (patched (disk w) header loc) = true ->
  exists w', completes w w' /\ disk w' = patched (disk w) header loc.
Proof.
  intros Hlast Hval Henc. pose proof (fix_exe_run w header loc Hlast Hval) as H.
  by rewrite Henc in H.
Qed.

(** A call that returns normally has passed the checks and left the
    patched file, every size of which fits its field. *)
Lemma completes_inv w w' :
  completes w w' ->
  exists header loc,
    last_slice (disk w) = Some header /\
    validate_slice header = inr loc /\
    disk w' = patched (disk w) header loc /\
    encodable (patched (disk w) header loc) = true.
Proof.
  unfold completes. intros Hrun.
  destruct (last_slice (disk w)) as [header|] eqn:Hlast.
  2:{ unfold fix_exe_for_code_signing, bind, getsize, MachO_open in Hrun.
      unfold last_slice in Hlast. by rewrite Hlast in Hrun. }
  destruct (validate_slice header) as [e|loc] eqn:Hval.
  { by rewrite (fix_exe_rejects w header e Hlast Hval) in Hrun. }
  exists header, loc. split; [done|]. split; [done|].
  pose proof (fix_exe_run w header loc Hlast Hval) as H.
  destruct (encodable (patched (disk w) header loc)).
  - destruct H as (w'' & Hrun' & Hdisk). rewrite Hrun in Hrun'.
    inversion Hrun'; by subst.
  - destruct H as (w'' & Hrun'). by rewrite Hrun in Hrun'.
Qed.

(** ** What the write passes record *)








(** ** Counting commands *)

Lemma count_pos p (cmds : list command) c :
  c ∈ cmds -> p c = true -> count p cmds <> 0%nat.
Proof.
  intros Hin Hp Hz. unfold count in Hz.
  assert (He : In c (List.filter p cmds)).
  { apply List.filter_In. split; [by apply list_elem_of_In|done]. }
  destruct (List.filter p cmds); [done|discriminate].
Qed.

Lemma select_from_elem p n (cmds : list command) c :
  c ∈ cmds -> p c = true -> exists i, (i, c) ∈ select_from n p cmds.
Proof.
  revert n. induction cmds as [|c0 r IH]; intros n Hin Hp.
  - by apply elem_of_nil in Hin.
  - apply elem_of_cons in Hin as [->|Hin]; cbn [select_from].
    + rewrite Hp. exists n. by left.
    + destruct (IH (S n) Hin Hp) as [i Hi]. exists i.
      destruct (p c0); [by right|done].
Qed.

(** The only command that satisfies [p] is the whole selection. *)
Lemma select_unique p (cmds : list command) c :
  count p cmds = 1%nat -> c ∈ cmds -> p c = true ->
  exists i, select p cmds = [(i, c)].
Proof.
  intros Hcount Hin Hp. rewrite <- (select_length p) in Hcount.
  destruct (select_from_elem p 0 cmds c Hin Hp) as [i Hi].
  fold (select p cmds) in Hi. exists i.
  destruct (select p cmds) as [|e [|? ?]]; try done.
  apply list_elem_of_singleton in Hi. by subst.
Qed.

Lemma validate_slice_signed h :
  count (kind_is LC_CODE_SIGNATURE) (commands h) <> 0%nat ->
  validate_slice h = inl (AssertionError msg_signed).
Proof.
  intros Hc. unfold validate_slice. rewrite select_length.
  by destruct (count (kind_is LC_CODE_SIGNATURE) (commands h)).
Qed.

Lemma validate_slice_linkedit h :
  count (kind_is LC_CODE_SIGNATURE) (commands h) = 0%nat ->
  count is_linkedit (commands h) <> 1%nat ->
  validate_slice h = inl (AssertionError msg_linkedit).
Proof.
  intros Hs Hc. unfold validate_slice. rewrite !select_length, Hs.
  cbn [Nat.eqb negb]. apply Nat.eqb_neq in Hc. by rewrite Hc.
Qed.

Lemma validate_slice_symtab h :
  count (kind_is LC_CODE_SIGNATURE) (commands h) = 0%nat ->
  count is_linkedit (commands h) = 1%nat ->
  count (kind_is LC_SYMTAB) (commands h) <> 1%nat ->
  validate_slice h = inl (AssertionError msg_symtab).
Proof.
  intros Hs Hl Hc. unfold validate_slice.
  pose proof (select_length is_linkedit (commands h)) as Hlen.
  rewrite !select_length, Hs, Hl. cbn [Nat.eqb negb].
  rewrite Hl in Hlen.
  destruct (select is_linkedit (commands h)) as [|[i c] [|? ?]] eqn:Hsel;
    try done.
  destruct (is_linkedit_shape c) as [seg ->].
  { eapply (select_lookup is_linkedit (commands h) i). rewrite Hsel. by left. }
  apply Nat.eqb_neq in Hc. by rewrite Hc.
Qed.

(** With both structures unique, the outcome of the validator is that of
    the check of line 125. *)
Lemma validate_slice_layout h seg sym :
  count (kind_is LC_CODE_SIGNATURE) (commands h) = 0%nat ->
  count is_linkedit (commands h) = 1%nat ->
  count (kind_is LC_SYMTAB) (commands h) = 1%nat ->
  Segment64 seg ∈ commands h -> is_linkedit (Segment64 seg) = true ->
  Symtab sym ∈ commands h ->
  exists i j,
    commands h !! i = Some (Segment64 seg) /\
    commands h !! j = Some (Symtab sym) /\
    validate_slice h
    = if fileoff seg + filesize seg =? stroff sym + strsize sym
      then inr {| seg_index := i; linkedit_seg := seg;
                  sym_index := j; symtab_sec := sym |}
      else inl (AssertionError msg_sanity).
Proof.
  intros Hs Hl Hy Hseg Hlk Hsym.
  destruct (select_unique is_linkedit (commands h) _ Hl Hseg Hlk) as [i Hi].
  destruct (select_unique (kind_is LC_SYMTAB) (commands h) _ Hy Hsym eq_refl)
    as [j Hj].
  exists i, j. split.
  { apply (select_lookup is_linkedit). rewrite Hi. by left. }
  split.
  { apply (select_lookup (kind_is LC_SYMTAB)). rewrite Hj. by left. }
  unfold validate_slice. rewrite select_length, Hs, Hi, Hj.
  cbn [length Nat.eqb negb].
  by destruct (fileoff seg + filesize seg =? stroff sym + strsize sym).
Qed.

(** The four messages tell the failing check. *)
Lemma messages_distinct :
  NoDup [AssertionError msg_signed; AssertionError msg_linkedit;
         AssertionError msg_symtab; AssertionError msg_sanity].
Proof.
  repeat (apply NoDup_cons; split;
          [rewrite ?elem_of_cons, elem_of_nil; intros H;
           repeat destruct H as [H|H]; discriminate || done|]).
  apply NoDup_nil_2.
Qed.

(** ** A second run *)

Lemma set_filesize_same s : set_filesize (filesize s + 0) s = s.
Proof. destruct s. unfold set_filesize. cbn. by rewrite Z.add_0_r. Qed.

Lemma set_strsize_same s : set_strsize (strsize s + 0) s = s.
Proof. destruct s. unfold set_strsize. cbn. by rewrite Z.add_0_r. Qed.

(** With nothing appended, the two assignments change nothing. *)
Lemma reconcile_delta_zero fs h loc :
  passes h loc -> delta fs h loc = 0 -> reconcile fs h loc = commands h.
Proof.
  intros Hp Hd. unfold reconcile. rewrite Hd.
  rewrite set_filesize_same, set_strsize_same.
  rewrite (list_insert_id (commands h) (sym_index loc))
    by apply (passes_sym_lookup Hp).
  by rewrite list_insert_id by apply (passes_seg_lookup Hp).
Qed.

(** The declared size of the patched slice is the size of the file. *)
Lemma old_file_size_reconcile fs h loc :
  old_file_size (set_commands (reconcile fs h loc) h) (grown (delta fs h loc) loc)
  = fs.
Proof. unfold old_file_size, delta, old_file_size. cbn. lia. Qed.

Lemma last_slice_patched f h loc :
  last_slice f = Some h ->
  last_slice (patched f h loc)
  = Some (set_commands (reconcile (file_size f) h loc) h).
Proof.
  unfold last_slice, MachO_load, patched. cbn [contents].
  destruct (contents f) as [cmds|magic slices]; cbn [patch_image headers].
  - cbn. by intros [= <-].
  - rewrite !fmap_last. intros Hl.
    destruct (last slices) as [x|] eqn:Hx; [|done].
    apply last_Some in Hx as [l' ->]. cbn in Hl. inversion Hl; subst h.
    rewrite length_app. cbn [length]. rewrite Nat.add_1_r. cbn [pred].
    rewrite alter_app_r_alt, Nat.sub_diag by done. cbn [alter list_alter].
    by rewrite last_snoc.
Qed.

Lemma patched_last_index f h loc : last_index (patched f h loc) = last_index f.
Proof. unfold last_index. by rewrite patched_slices, length_insert. Qed.

Lemma patched_idem f h loc :
  last_slice f = Some h -> passes h loc ->
  patched (patched f h loc)
          (set_commands (reconcile (file_size f) h loc) h)
          (grown (delta (file_size f) h loc) loc)
  = patched f h loc.
Proof.
  intros Hlast Hp.
  set (h1 := set_commands (reconcile (file_size f) h loc) h).
  set (loc1 := grown (delta (file_size f) h loc) loc).
  assert (Hrec : reconcile (file_size f) h1 loc1 = commands h1).
  { apply reconcile_delta_zero; [by apply passes_reconcile|].
    unfold delta. unfold h1, loc1. rewrite old_file_size_reconcile. lia. }
  apply file_ext; [done|]. apply image_ext.
  - by rewrite !patched_fat.
  - rewrite (patched_archs (patched f h loc)), patched_last_index.
    rewrite (patched_archs f). cbn [file_size patched].
    rewrite list_alter_alter_eq. apply list_alter_ext; [|done].
    intros a _. by destruct a.
  - rewrite (patched_slices (patched f h loc)), patched_last_index.
    cbn [file_size patched]. rewrite Hrec.
    rewrite (patched_slices f). cbn [commands h1 set_commands].
    by rewrite list_insert_insert_eq.
Qed.

(* ===================================================================== *)
(** * Rejections *)
(* ===================================================================== *)

(** C4.  When the last slice holds a code-signature load command, the call
    fails with the assertion "Executable contains code signature!", an
    error no other check raises, and the file is as it was: nothing has
    been written. *)
Theorem signed_slice_rejected (w : world) (header : MachOHeader) (c : command) :
  last_slice (disk w) = Some header ->
  c ∈ commands header -> cmd c = LC_CODE_SIGNATURE ->
  rejected_with (AssertionError msg_signed) w /\
  AssertionError msg_signed ∉ [AssertionError msg_linkedit;
                                AssertionError msg_symtab;
                                AssertionError msg_sanity].
Proof.
  intros Hlast Hin Hc. split.
  - apply (fix_exe_rejects w header _ Hlast).
    apply validate_slice_signed. apply (count_pos _ _ c Hin).
    unfold kind_is. by apply bool_decide_eq_true_2.
  - pose proof messages_distinct as Hd. by apply NoDup_cons in Hd as [Hd _].
Qed.

Lemma signed_slice_rejected_witness :
  rejected_with (AssertionError msg_signed)
                (Scenario.thin 100512 Scenario.signed_cmds) /\
  AssertionError msg_signed ∉ [AssertionError msg_linkedit;
                                AssertionError msg_symtab;
                                AssertionError msg_sanity].
Proof.
  apply (signed_slice_rejected
           (Scenario.thin 100512 Scenario.signed_cmds)
           {| offset := 0; commands := Scenario.signed_cmds |}
           (CodeSignature Scenario.signature)).
  - reflexivity.
  - cbn. do 3 right. left.
  - reflexivity.
Defined.

(** C5, as stated, fails on a signed slice: with no [__LINKEDIT] segment at
    all, the error is that of the code-signature check, which comes
    first. *)
Lemma signed_slice_without_linkedit :
  last_slice (disk (Scenario.thin 100512 Scenario.signed_bare_cmds))
  = Some {| offset := 0; commands := Scenario.signed_bare_cmds |} /\
  count is_linkedit Scenario.signed_bare_cmds = 0%nat /\
  rejected_with (AssertionError msg_signed)
                (Scenario.thin 100512 Scenario.signed_bare_cmds) /\
  ~ rejected_with (AssertionError msg_linkedit)
                  (Scenario.thin 100512 Scenario.signed_bare_cmds) /\
  ~ rejected_with (AssertionError msg_symtab)
                  (Scenario.thin 100512 Scenario.signed_bare_cmds).
Proof.
  split; [reflexivity|]. split; [reflexivity|]. split; [reflexivity|].
  split; intros H; vm_compute in H; discriminate H.
Qed.

(** C5, amended.  When the last slice does not hold exactly one
    [__LINKEDIT] segment-64 command, or not exactly one symbol-table
    command, the call fails before anything is written and the file is as it
    was.  The error is that of the first failing check: the code-signature
    assertion on a signed slice; otherwise "Expected exactly one __LINKEDIT
    segment!" when the number of such segments is not one; otherwise
    "Expected exactly one SYMTAB section!". *)
Theorem missing_structure_rejected (w : world) (header : MachOHeader) :
  last_slice (disk w) = Some header ->
  count is_linkedit (commands header) <> 1%nat \/
  count (kind_is LC_SYMTAB) (commands header) <> 1%nat ->
  (exists e, rejected_with e w) /\
  (count (kind_is LC_CODE_SIGNATURE) (commands header) <> 0%nat ->
   rejected_with (AssertionError msg_signed) w) /\
  (count (kind_is LC_CODE_SIGNATURE) (commands header) = 0%nat ->
   count is_linkedit (commands header) <> 1%nat ->
   rejected_with (AssertionError msg_linkedit) w) /\
  (count (kind_is LC_CODE_SIGNATURE) (commands header) = 0%nat ->
   count is_linkedit (commands header) = 1%nat ->
   rejected_with (AssertionError msg_symtab) w).
Proof.
  intros Hlast Hmiss.
  assert (H1 : count (kind_is LC_CODE_SIGNATURE) (commands header) <> 0%nat ->
               rejected_with (AssertionError msg_signed) w).
  { intros Hs. apply (fix_exe_rejects w header _ Hlast).
    by apply validate_slice_signed. }
  assert (H2 : count (kind_is LC_CODE_SIGNATURE) (commands header) = 0%nat ->
               count is_linkedit (commands header) <> 1%nat ->
               rejected_with (AssertionError msg_linkedit) w).
  { intros Hs Hl. apply (fix_exe_rejects w header _ Hlast).
    by apply validate_slice_linkedit. }
  assert (H3 : count (kind_is LC_CODE_SIGNATURE) (commands header) = 0%nat ->
               count is_linkedit (commands header) = 1%nat ->
               rejected_with (AssertionError msg_symtab) w).
  { intros Hs Hl. apply (fix_exe_rejects w header _ Hlast).
    apply validate_slice_symtab; try done.
    destruct Hmiss as [Hm|Hm]; [by rewrite Hl in Hm | done]. }
  split; [|done].
  destruct (decide (count (kind_is LC_CODE_SIGNATURE) (commands header) = 0%nat))
    as [Hs|Hs]; [|eauto].
  destruct (decide (count is_linkedit (commands header) = 1%nat)); eauto.
Qed.

Lemma missing_structure_rejected_witness :
  count is_linkedit Scenario.twice_linkedit_cmds = 2%nat /\
  rejected_with (AssertionError msg_linkedit)
                (Scenario.thin 100000 Scenario.twice_linkedit_cmds).
Proof.
  split; [reflexivity|].
  destruct (missing_structure_rejected
              (Scenario.thin 100000 Scenario.twice_linkedit_cmds)
              {| offset := 0; commands := Scenario.twice_linkedit_cmds |})
    as (_ & _ & H & _).
  - reflexivity.
  - left. vm_compute. lia.
  - apply H; vm_compute; lia.
Defined.




(* ===================================================================== *)
(** * Size reconciliation *)
(* ===================================================================== *)

(** The commands of the slice after the two assignments. *)
Lemma reconcile_lookups fs h loc :
  commands h !! seg_index loc = Some (Segment64 (linkedit_seg loc)) ->
  commands h !! sym_index loc = Some (Symtab (symtab_sec loc)) ->
  reconcile fs h loc !! seg_index loc
  = Some (Segment64 (set_filesize (filesize (linkedit_seg loc) + delta fs h loc)
                                  (linkedit_seg loc))) /\
  reconcile fs h loc !! sym_index loc
  = Some (Symtab (set_strsize (strsize (symtab_sec loc) + delta fs h loc)
                              (symtab_sec loc))) /\
  (forall n, n <> seg_index loc -> n <> sym_index loc ->
             reconcile fs h loc !! n = commands h !! n).
Proof.
  intros Hseg Hsym.
  assert (Hne : seg_index loc <> sym_index loc).
  { intros Heq. rewrite Heq in Hseg. congruence. }
  unfold reconcile. repeat split.
  - apply list_lookup_insert_eq. rewrite length_insert.
    by eapply lookup_lt_Some.
  - rewrite list_lookup_insert_ne by done.
    apply list_lookup_insert_eq. by eapply lookup_lt_Some.
  - intros n H1 H2. by rewrite !list_lookup_insert_ne.
Qed.

(** The slice a completed call leaves last in the file. *)
Lemma completes_last_slice w w' header loc :
  last_slice (disk w) = Some header ->
  validate_slice header = inr loc ->
  completes w w' ->
  disk w' = patched (disk w) header loc /\
  encodable (disk w') = true /\
  image_slices (contents (disk w')) !! last_index (disk w)
  = Some (reconcile (file_size (disk w)) header loc).
Proof.
  intros Hlast Hval Hc.
  destruct (completes_inv w w' Hc) as (h & l & Hlast' & Hval' & Hdisk & Henc).
  rewrite Hlast in Hlast'. inversion Hlast'; subst h.
  rewrite Hval in Hval'. inversion Hval'; subst l.
  split; [done|]. split; [by rewrite Hdisk|].
  rewrite Hdisk, patched_slices. apply list_lookup_insert_eq.
  eapply lookup_lt_Some, (last_slice_commands Hlast).
Qed.






(** C9.  When the [__LINKEDIT] segment and the symbol table of a slice meet
    the equation of the validator, [fileoff + filesize = stroff + strsize],
    the two assignments leave [fileoff] and [stroff] as they were, add
    [delta] to [filesize] and to [strsize], and the equation holds of the
    new values. *)
Theorem contiguity_preserved (fs : Z) (header : MachOHeader) (loc : located) :
  commands header !! seg_index loc = Some (Segment64 (linkedit_seg loc)) ->
  commands header !! sym_index loc = Some (Symtab (symtab_sec loc)) ->
  contiguous (linkedit_seg loc) (symtab_sec loc) ->
  exists seg' sym',
    reconcile fs header loc !! seg_index loc = Some (Segment64 seg') /\
    reconcile fs header loc !! sym_index loc = Some (Symtab sym') /\
    fileoff seg' = fileoff (linkedit_seg loc) /\
    stroff sym' = stroff (symtab_sec loc) /\
    filesize seg' = filesize (linkedit_seg loc) + delta fs header loc /\
    strsize sym' = strsize (symtab_sec loc) + delta fs header loc /\
    contiguous seg' sym'.
Proof.
  intros Hseg Hsym Hc.
  destruct (reconcile_lookups fs header loc Hseg Hsym) as (H1 & H2 & _).
  eexists. eexists. split; [exact H1|]. split; [exact H2|].
  repeat split. unfold contiguous in *. cbn. lia.
Qed.

Lemma contiguity_preserved_witness :
  exists seg' sym',
    reconcile 100020 {| offset := 0; commands := Scenario.unsigned_cmds |}
              {| seg_index := 1; linkedit_seg := Scenario.linkedit;
                 sym_index := 2; symtab_sec := Scenario.symtab |} !! 1%nat
    = Some (Segment64 seg') /\
    reconcile 100020 {| offset := 0; commands := Scenario.unsigned_cmds |}
              {| seg_index := 1; linkedit_seg := Scenario.linkedit;
                 sym_index := 2; symtab_sec := Scenario.symtab |} !! 2%nat
    = Some (Symtab sym') /\
    contiguous seg' sym'.
Proof.
  destruct (contiguity_preserved 100020
              {| offset := 0; commands := Scenario.unsigned_cmds |}
              {| seg_index := 1; linkedit_seg := Scenario.linkedit;
                 sym_index := 2; symtab_sec := Scenario.symtab |}
              eq_refl eq_refl eq_refl)
    as (seg' & sym' & H1 & H2 & _ & _ & _ & _ & Hc).
  exists seg', sym'. by repeat split.
Defined.

(* ===================================================================== *)
(** * The fat header *)
(* ===================================================================== *)



(* ===================================================================== *)
(** * What a completed call leaves alone *)
(* ===================================================================== *)

(** C7.  A call that completes keeps the size of the file and its magic,
    every slice but the last, and in the last slice every load command but
    the [__LINKEDIT] segment and the symbol table; of the segment it
    changes [filesize] only, so [vmsize] is what it was, and of the symbol
    table [strsize] only.  In the fat table it keeps every entry but the
    last, of which it changes [size] only; a thin binary has no fat table
    before or after. *)
Theorem patch_frame (w w' : world) :
  completes w w' ->
  exists header loc cmds',
    last_slice (disk w) = Some header /\
    validate_slice header = inr loc /\
    file_size (disk w') = file_size (disk w) /\
    image_fat (contents (disk w')) = image_fat (contents (disk w)) /\
    length (image_slices (contents (disk w')))
    = length (image_slices (contents (disk w))) /\
    (forall k, k <> last_index (disk w) ->
       image_slices (contents (disk w')) !! k
       = image_slices (contents (disk w)) !! k) /\
    image_slices (contents (disk w')) !! last_index (disk w) = Some cmds' /\
    length cmds' = length (commands header) /\
    (forall n, n <> seg_index loc -> n <> sym_index loc ->
       cmds' !! n = commands header !! n) /\
    (exists seg',
       cmds' !! seg_index loc = Some (Segment64 seg') /\
       vmsize seg' = vmsize (linkedit_seg loc) /\
       seg' = set_filesize (filesize seg') (linkedit_seg loc)) /\
    (exists sym',
       cmds' !! sym_index loc = Some (Symtab sym') /\
       sym' = set_strsize (strsize sym') (symtab_sec loc)) /\
    length (image_archs (contents (disk w')))
    = length (image_archs (contents (disk w))) /\
    (forall k, k <> last_index (disk w) ->
       image_archs (contents (disk w')) !! k
       = image_archs (contents (disk w)) !! k) /\
    (forall a, image_archs (contents (disk w)) !! last_index (disk w) = Some a ->
       exists a',
         image_archs (contents (disk w')) !! last_index (disk w) = Some a' /\
         a' = set_arch_size (arch_size a') a).
Proof.
  intros Hc.
  destruct (completes_inv w w' Hc) as (h & loc & Hlast & Hval & Hdisk & _).
  pose proof (validate_slice_passes _ _ Hval) as Hp.
  destruct (reconcile_lookups (file_size (disk w)) h loc
              (passes_seg_lookup Hp) (passes_sym_lookup Hp)) as (H1 & H2 & H3).
  pose proof (last_slice_commands Hlast) as Hcmds.
  exists h, loc, (reconcile (file_size (disk w)) h loc).
  rewrite Hdisk, patched_fat, patched_slices, patched_archs.
  cbn [file_size patched].
  repeat split; try done.
  - by rewrite length_insert.
  - intros k Hk. by apply list_lookup_insert_ne.
  - apply list_lookup_insert_eq. by eapply lookup_lt_Some.
  - apply reconcile_length.
  - eexists. split; [exact H1|]. by split.
  - eexists. split; [exact H2|]. done.
  - by rewrite length_alter.
  - intros k Hk. by apply list_lookup_alter_ne.
  - intros a Ha. eexists. split.
    + rewrite list_lookup_alter_eq, Ha. reflexivity.
    + done.
Qed.

Lemma patch_frame_witness :
  exists header loc cmds',
    last_slice (disk (Scenario.fat2 231077)) = Some header /\
    validate_slice header = inr loc /\
    image_slices
      (contents (disk (fix_exe_for_code_signing (Scenario.fat2 231077)).2))
      !! last_index (disk (Scenario.fat2 231077)) = Some cmds' /\
    exists seg',
      cmds' !! seg_index loc = Some (Segment64 seg') /\
      vmsize seg' = vmsize (linkedit_seg loc).
Proof.
  destruct (patch_frame (Scenario.fat2 231077)
              (fix_exe_for_code_signing (Scenario.fat2 231077)).2
              ltac:(by vm_compute))
    as (header & loc & cmds' & H1 & H2 & _ & _ & _ & _ & H3 & _ & _ & H4 & _).
  exists header, loc, cmds'.
  destruct H4 as (seg' & H4 & H5 & _).
  split; [exact H1|]. split; [exact H2|]. split; [exact H3|].
  exists seg'. by split.
Defined.

(* ===================================================================== *)
(** * Running the function again *)
(* ===================================================================== *)

(** C8.  After a call that completed, a second call completes as well and
    leaves the file as the first one left it: [strsize], [filesize], the
    size of the last entry of the fat table and everything else on disk
    are unchanged. *)
Theorem second_run_noop (w w1 : world) :
  completes w w1 ->
  exists w2, completes w1 w2 /\ disk w2 = disk w1.
Proof.
  intros Hc.
  destruct (completes_inv w w1 Hc) as (h & loc & Hlast & Hval & Hdisk & Henc).
  pose proof (validate_slice_passes _ _ Hval) as Hp.
  set (h1 := set_commands (reconcile (file_size (disk w)) h loc) h).
  set (loc1 := grown (delta (file_size (disk w)) h loc) loc).
  assert (Hlast1 : last_slice (disk w1) = Some h1).
  { rewrite Hdisk. by apply last_slice_patched. }
  assert (Hval1 : validate_slice h1 = inr loc1).
  { apply passes_validate_slice. by apply passes_reconcile. }
  assert (Hsame : patched (disk w1) h1 loc1 = disk w1).
  { rewrite Hdisk. by apply patched_idem. }
  destruct (fix_exe_completes w1 h1 loc1 Hlast1 Hval1) as (w2 & Hc2 & Hd2).
  { rewrite Hsame, Hdisk. exact Henc. }
  exists w2. split; [exact Hc2|]. by rewrite Hd2.
Qed.

Lemma second_run_noop_witness :
  exists w2,
    completes (fix_exe_for_code_signing (Scenario.fat2 231077)).2 w2 /\
    disk w2 = disk (fix_exe_for_code_signing (Scenario.fat2 231077)).2.
Proof.
  apply (second_run_noop (Scenario.fat2 231077)). by vm_compute.
Defined.

(* ===================================================================== *)
(** * Toolchain prefixes *)
(* ===================================================================== *)

(** C10.  When [shutil.which] finds no [brew] command, [get_homebrew_prefix]
    returns neither a path nor [None]: [os.path.dirname] raises a
    [TypeError], and [is_homebrew_env] raises it too instead of returning
    [False].  The same holds of [port], [get_macports_prefix] and
    [is_macports_env]. *)
Theorem missing_command_raises (which : string -> option string)
    (base_prefix : string) :
  (which "brew" = None ->
   Prefix.get_homebrew_prefix which = inl TypeError /\
   Prefix.is_homebrew_env which base_prefix = inl TypeError) /\
  (which "port" = None ->
   Prefix.get_macports_prefix which = inl TypeError /\
   Prefix.is_macports_env which base_prefix = inl TypeError).
Proof.
  split; intros Hnone.
  - unfold Prefix.is_homebrew_env, Prefix.get_homebrew_prefix.
    by rewrite Hnone.
  - unfold Prefix.is_macports_env, Prefix.get_macports_prefix.
    by rewrite Hnone.
Qed.

Lemma missing_command_raises_witness :
  Prefix.is_homebrew_env (fun _ => None) "/usr/local" = inl TypeError /\
  Prefix.is_macports_env (fun _ => None) "/opt/local" = inl TypeError.
Proof.
  split.
  - apply (proj1 (missing_command_raises (fun _ => None) "/usr/local")).
    reflexivity.
  - apply (proj2 (missing_command_raises (fun _ => None) "/opt/local")).
    reflexivity.
Defined.

(** With the command on PATH the prefix is two directories up. *)
Example homebrew_prefix_found :
  Prefix.get_homebrew_prefix
    (fun c => if String.eqb c "brew" then Some "/usr/local/bin/brew" else None)
  = inr "/usr/local"%string /\
  Prefix.is_homebrew_env
    (fun c => if String.eqb c "brew" then Some "/usr/local/bin/brew" else None)
    "/usr/local/Cellar/python/3.9/Frameworks"
  = inr true.
Proof. split; reflexivity. Qed.

(* ===================================================================== *)
(** * Toolchain prefixes: the path arithmetic *)
(* ===================================================================== *)

Lemma list_ascii_of_string_app a b :
  list_ascii_of_string (a +:+ b) = list_ascii_of_string a ++ list_ascii_of_string b.
Proof. induction a as [|c a IH]; [done|]. simpl. f_equal. exact IH. Qed.

Lemma string_append_assoc a b c : (a +:+ b) +:+ c = a +:+ b +:+ c.
Proof.
  induction a as [|x a IH]; [done|].
  change (String x ((a +:+ b) +:+ c) = String x (a +:+ b +:+ c)).
  by rewrite IH.
Qed.

Lemma drop_while_all p l : forallb p l = true -> Prefix.drop_while p l = [].
Proof.
  induction l as [|c l IH]; [done|]. cbn. destruct (p c); [apply IH|done].
Qed.

Lemma drop_while_stop p l c r :
  forallb p l = true -> p c = false ->
  Prefix.drop_while p (l ++ c :: r) = c :: r.
Proof.
  intros Hl Hc. induction l as [|x l IH]; cbn in *.
  - by rewrite Hc.
  - apply andb_prop in Hl as [-> Hl]. by apply IH.
Qed.

Lemma forallb_rev {A : Type} (p : A -> bool) (l : list A) :
  forallb p (rev l) = forallb p l.
Proof.
  induction l as [|x l IH]; [done|]. cbn.
  rewrite forallb_app, IH. cbn. rewrite andb_true_r. apply andb_comm.
Qed.

(** A path without a slash has no directory part. *)
Lemma posix_dirname_slash_free s :
  slash_free s = true -> Prefix.posix_dirname s = "".
Proof.
  intros Hs. unfold Prefix.posix_dirname.
  rewrite drop_while_all; [done|].
  by rewrite forallb_rev.
Qed.

(** The directory part of [a/b], for a last component [b] and a directory
    [a] that ends in a name. *)
Lemma posix_dirname_join a b :
  ends_in_name a = true -> slash_free b = true ->
  Prefix.posix_dirname (a +:+ "/" +:+ b) = a.
Proof.
  unfold ends_in_name, slash_free. intros Ha Hb.
  destruct (last (list_ascii_of_string a)) as [c|] eqn:Hlast; [|done].
  apply last_Some in Hlast as [la Hla].
  unfold Prefix.posix_dirname.
  rewrite !list_ascii_of_string_app, Hla. cbn [list_ascii_of_string app].
  rewrite !rev_app_distr.
  change (rev ("/"%char :: list_ascii_of_string b))
    with (rev (list_ascii_of_string b) ++ ["/"%char]).
  change (rev [c]) with [c].
  rewrite <- app_assoc. cbn [app].
  rewrite (drop_while_stop _ (rev (list_ascii_of_string b)))
    by (by rewrite ?forallb_rev).
  cbn [forallb Prefix.drop_while]. change (Prefix.is_sep "/") with true.
  apply negb_true_iff in Ha. rewrite Ha. cbn [andb negb].
  cbn [rev]. rewrite rev_involutive.
  by rewrite <- Hla, string_of_list_ascii_of_string.
Qed.

Lemma ends_in_name_join a d :
  slash_free d = true -> d <> ""%string -> ends_in_name (a +:+ "/" +:+ d) = true.
Proof.
  unfold ends_in_name, slash_free. intros Hd Hne.
  rewrite !list_ascii_of_string_app. cbn [list_ascii_of_string app].
  destruct (last (list_ascii_of_string d)) as [x|] eqn:Hlast.
  - apply last_Some in Hlast as [l' Hl'].
    rewrite Hl' in Hd |- *. rewrite forallb_app in Hd.
    apply andb_prop in Hd as [_ Hx]. cbn in Hx. rewrite andb_true_r in Hx.
    replace (list_ascii_of_string a ++ "/"%char :: l' ++ [x])
      with ((list_ascii_of_string a ++ "/"%char :: l') ++ [x])
      by by rewrite <- app_assoc.
    by rewrite last_snoc.
  - apply last_None in Hlast. by destruct d.
Qed.

Lemma ends_in_name_truthy s : ends_in_name s = true -> Prefix.truthy s = true.
Proof. by destruct s. Qed.

Lemma two_levels_up root d name :
  ends_in_name root = true -> slash_free d = true -> d <> ""%string ->
  slash_free name = true ->
  Prefix.posix_dirname (root +:+ "/" +:+ d +:+ "/" +:+ name) = root +:+ "/" +:+ d /\
  Prefix.posix_dirname (root +:+ "/" +:+ d) = root.
Proof.
  intros Hroot Hd Hne Hname. split.
  - replace (root +:+ "/" +:+ d +:+ "/" +:+ name)
      with ((root +:+ "/" +:+ d) +:+ "/" +:+ name)
      by by rewrite !string_append_assoc.
    apply posix_dirname_join; [by apply ends_in_name_join|done].
  - by apply posix_dirname_join.
Qed.

(** X1.  The conversion the source announces ([/usr/local/bin/brew ->
    /usr/local]): when the command is found at [root/d/name], where [root]
    ends in a name and [d] and [name] are single components, the prefix is
    [root], and the environment test is whether [base_prefix] starts with
    [root]. *)
Theorem prefix_two_levels_up (which : string -> option string)
    (base_prefix root d name : string) :
  ends_in_name root = true -> slash_free d = true -> d <> ""%string ->
  slash_free name = true ->
  (which "brew" = Some (root +:+ "/" +:+ d +:+ "/" +:+ name) ->
   Prefix.get_homebrew_prefix which = inr root /\
   Prefix.is_homebrew_env which base_prefix = inr (String.prefix root base_prefix)) /\
  (which "port" = Some (root +:+ "/" +:+ d +:+ "/" +:+ name) ->
   Prefix.get_macports_prefix which = inr root /\
   Prefix.is_macports_env which base_prefix = inr (String.prefix root base_prefix)).
Proof.
  intros Hroot Hd Hne Hname.
  destruct (two_levels_up root d name Hroot Hd Hne Hname) as [H1 H2].
  pose proof (ends_in_name_truthy root Hroot) as Ht.
  split; intros Hw.
  - unfold Prefix.is_homebrew_env, Prefix.get_homebrew_prefix.
    rewrite Hw. cbn [Prefix.dirname]. rewrite H1, H2, Ht.
    unfold Prefix.startswith. by destruct (String.prefix root base_prefix).
  - unfold Prefix.is_macports_env, Prefix.get_macports_prefix.
    rewrite Hw. cbn [Prefix.dirname]. rewrite H1, H2, Ht.
    unfold Prefix.startswith. by destruct (String.prefix root base_prefix).
Qed.

Lemma prefix_two_levels_up_witness :
  Prefix.get_homebrew_prefix
    (fun c => if String.eqb c "brew" then Some "/opt/homebrew/bin/brew" else None)
  = inr "/opt/homebrew"%string /\
  Prefix.is_homebrew_env
    (fun c => if String.eqb c "brew" then Some "/opt/homebrew/bin/brew" else None)
    "/usr/bin"
  = inr false.
Proof.
  exact (proj1 (prefix_two_levels_up
                  (fun c => if String.eqb c "brew"
                            then Some "/opt/homebrew/bin/brew" else None)
                  "/usr/bin" "/opt/homebrew" "bin" "brew"
                  eq_refl eq_refl ltac:(discriminate) eq_refl) eq_refl).
Defined.

(** X2.  When the command is found by a path whose directory part has no
    slash (a bare name, [bin/brew], [./brew]), the prefix is the empty
    string and the environment test is [False] whatever [base_prefix] is:
    the test on [env_prefix] keeps [startswith] from accepting the empty
    prefix. *)
Theorem shallow_path_is_no_env (which : string -> option string)
    (base_prefix p : string) :
  slash_free (Prefix.posix_dirname p) = true ->
  (which "brew" = Some p ->
   Prefix.get_homebrew_prefix which = inr ""%string /\
   Prefix.is_homebrew_env which base_prefix = inr false) /\
  (which "port" = Some p ->
   Prefix.get_macports_prefix which = inr ""%string /\
   Prefix.is_macports_env which base_prefix = inr false).
Proof.
  intros Hp. pose proof (posix_dirname_slash_free _ Hp) as Hd.
  split; intros Hw.
  - unfold Prefix.is_homebrew_env, Prefix.get_homebrew_prefix.
    rewrite Hw. cbn [Prefix.dirname]. by rewrite Hd.
  - unfold Prefix.is_macports_env, Prefix.get_macports_prefix.
    rewrite Hw. cbn [Prefix.dirname]. by rewrite Hd.
Qed.

Lemma shallow_path_is_no_env_witness :
  Prefix.startswith "" "" = true /\
  Prefix.is_macports_env
    (fun c => if String.eqb c "port" then Some "./port" else None) ""
  = inr false.
Proof.
  split; [reflexivity|].
  exact (proj2 (proj2 (shallow_path_is_no_env
                         (fun c => if String.eqb c "port" then Some "./port" else None)
                         "" "./port" eq_refl) eq_refl)).
Defined.

(** X3.  The environment tests raise exactly when the command is not
    found, and then a [TypeError]; in every other environment they return
    a boolean. *)
Theorem env_test_raises_iff (which : string -> option string)
    (base_prefix : string) (e : exn) :
  (Prefix.is_homebrew_env which base_prefix = inl e <->
   which "brew" = None /\ e = TypeError) /\
  (Prefix.is_macports_env which base_prefix = inl e <->
   which "port" = None /\ e = TypeError).
Proof.
  split.
  - unfold Prefix.is_homebrew_env, Prefix.get_homebrew_prefix.
    destruct (which "brew") as [p|]; cbn [Prefix.dirname].
    + split; [|by intros [? _]].
      by destruct (Prefix.truthy _ && Prefix.startswith _ _).
    + split; [by intros [= <-]|by intros [_ ->]].
  - unfold Prefix.is_macports_env, Prefix.get_macports_prefix.
    destruct (which "port") as [p|]; cbn [Prefix.dirname].
    + split; [|by intros [? _]].
      by destruct (Prefix.truthy _ && Prefix.startswith _ _).
    + split; [by intros [= <-]|by intros [_ ->]].
Qed.

(* ===================================================================== *)
(** * The outcomes of a call *)
(* ===================================================================== *)






(** X5.  The four checks pass exactly on a slice with no code-signature
    command, exactly one [__LINKEDIT] segment-64 command and exactly one
    symbol-table command, the segment ending where the string table
    ends. *)
Theorem checks_pass_iff (h : MachOHeader) :
  (exists loc, validate_slice h = inr loc) <->
  count (kind_is LC_CODE_SIGNATURE) (commands h) = 0%nat /\
  count is_linkedit (commands h) = 1%nat /\
  count (kind_is LC_SYMTAB) (commands h) = 1%nat /\
  exists seg sym,
    Segment64 seg ∈ commands h /\ is_linkedit (Segment64 seg) = true /\
    Symtab sym ∈ commands h /\
    fileoff seg + filesize seg = stroff sym + strsize sym.
Proof.
  split.
  - intros [loc Hval]. pose proof (validate_slice_passes _ _ Hval) as Hp.
    rewrite <- !select_length.
    rewrite (passes_unsigned _ _ Hp), (passes_linkedit _ _ Hp),
      (passes_symtab _ _ Hp).
    repeat split; try done.
    exists (linkedit_seg loc), (symtab_sec loc). split.
    { eapply list_elem_of_lookup_2, (passes_seg_lookup Hp). }
    split; [apply (passes_is_linkedit Hp)|]. split.
    { eapply list_elem_of_lookup_2, (passes_sym_lookup Hp). }
    apply (passes_contiguous _ _ Hp).
  - intros (Hs & Hl & Hy & seg & sym & Hseg & Hlk & Hsym & Hc).
    destruct (validate_slice_layout h seg sym Hs Hl Hy Hseg Hlk Hsym)
      as (i & j & _ & _ & Hval).
    apply Z.eqb_eq in Hc. rewrite Hc in Hval. by eexists.
Qed.

(** X6.  After a call that completes, on a thin or a fat binary alike, the
    last slice passes the four checks again and the size it declares, its
    offset plus [fileoff + filesize] of [__LINKEDIT], is the size of the
    file. *)
Theorem declared_size_after (w w' : world) :
  completes w w' ->
  exists header' loc',
    last_slice (disk w') = Some header' /\
    validate_slice header' = inr loc' /\
    old_file_size header' loc' = file_size (disk w').
Proof.
  intros Hc.
  destruct (completes_inv w w' Hc) as (h & loc & Hlast & Hval & Hdisk & _).
  pose proof (validate_slice_passes _ _ Hval) as Hp.
  exists (set_commands (reconcile (file_size (disk w)) h loc) h),
         (grown (delta (file_size (disk w)) h loc) loc).
  split; [rewrite Hdisk; by apply last_slice_patched|].
  split; [apply passes_validate_slice; by apply passes_reconcile|].
  rewrite Hdisk. cbn [file_size patched]. apply old_file_size_reconcile.
Qed.

Lemma declared_size_after_witness :
  exists header' loc',
    last_slice (disk (fix_exe_for_code_signing (Scenario.fat2 231077)).2)
    = Some header' /\
    validate_slice header' = inr loc' /\
    old_file_size header' loc' = 231077.
Proof.
  exact (declared_size_after (Scenario.fat2 231077)
           (fix_exe_for_code_signing (Scenario.fat2 231077)).2
           ltac:(by vm_compute)).
Defined.



(* ===================================================================== *)
(** * Nothing appended *)
(* ===================================================================== *)





(* ===================================================================== *)
(** * Sizes that do not fit *)
(* ===================================================================== *)






(** ** A fat table that cannot be rewritten *)





(* ===================================================================== *)
(** * Patching again after more data was appended *)
(* ===================================================================== *)

Lemma last_slice_contents f g :
  contents f = contents g -> last_slice f = last_slice g.
Proof. unfold last_slice, MachO_load. by intros ->. Qed.

Lemma last_index_contents f g :
  contents f = contents g -> last_index f = last_index g.
Proof. unfold last_index. by intros ->. Qed.

Lemma insert_pair_twice {A : Type} (l : list A) i j a1 b1 a2 b2 :
  i <> j ->
  <[i := a2]> (<[j := b2]> (<[i := a1]> (<[j := b1]> l)))
  = <[i := a2]> (<[j := b2]> l).
Proof.
  intros Hne.
  rewrite (list_insert_insert_ne _ j i) by (by apply not_eq_sym).
  by rewrite !list_insert_insert_eq.
Qed.

(** The two assignments made a second time, at a later size of the file,
    leave what they would have left when made once at that size. *)
Lemma reconcile_twice fs fs' h loc :
  passes h loc ->
  reconcile fs' (set_commands (reconcile fs h loc) h) (grown (delta fs h loc) loc)
  = reconcile fs' h loc.
Proof.
  intros Hp. pose proof (passes_indices Hp) as Hne.
  assert (Hd : delta fs' (set_commands (reconcile fs h loc) h)
                     (grown (delta fs h loc) loc)
               = delta fs' h loc - delta fs h loc).
  { unfold delta, old_file_size. cbn. lia. }
  rewrite (reconcile_grown fs' (set_commands (reconcile fs h loc) h)), Hd.
  cbn [commands set_commands seg_index sym_index].
  rewrite (reconcile_grown fs h loc), (reconcile_grown fs' h loc).
  rewrite insert_pair_twice by done.
  f_equal; [|f_equal]; f_equal.
  - cbn. unfold set_filesize. cbn. f_equal. lia.
  - cbn. unfold set_strsize. cbn. f_equal. lia.
Qed.

(** X11.  Patching composes: when a call has completed, more data is
    appended and a second call completes, the file is the one a single
    call at the final size would have left, starting from the first
    file.  The sizes grow by the sum of the two payloads. *)
Theorem patch_twice_is_patch_once (w w1 wa wb w2 : world) :
  completes w w1 ->
  contents (disk wb) = contents (disk w1) ->
  contents (disk wa) = contents (disk w) ->
  file_size (disk wa) = file_size (disk wb) ->
  completes wb w2 ->
  exists w2', completes wa w2' /\ disk w2' = disk w2.
Proof.
  intros Hc1 Hb Ha Hsize Hc2.
  destruct (completes_inv w w1 Hc1) as (h & loc & Hlast & Hval & Hdisk1 & _).
  pose proof (validate_slice_passes _ _ Hval) as Hp.
  set (fs := file_size (disk w)) in *.
  set (h1 := set_commands (reconcile fs h loc) h).
  set (loc1 := grown (delta fs h loc) loc).
  assert (Hlast1 : last_slice (disk wb) = Some h1).
  { rewrite (last_slice_contents _ _ Hb), Hdisk1. by apply last_slice_patched. }
  assert (Hval1 : validate_slice h1 = inr loc1).
  { apply passes_validate_slice. by apply passes_reconcile. }
  destruct (completes_last_slice wb w2 h1 loc1 Hlast1 Hval1 Hc2)
    as (Hdisk2 & Henc2 & _).
  assert (Hlasta : last_slice (disk wa) = Some h).
  { by rewrite (last_slice_contents _ _ Ha). }
  assert (Hsame : patched (disk wa) h loc = patched (disk wb) h1 loc1).
  { apply file_ext; [done|]. apply image_ext.
    - rewrite !patched_fat, Ha, Hb, Hdisk1. by rewrite patched_fat.
    - rewrite !patched_archs.
      rewrite (last_index_contents _ _ Ha), (last_index_contents _ _ Hb).
      rewrite Ha, Hb, Hdisk1, patched_last_index, patched_archs.
      rewrite list_alter_alter_eq. apply list_alter_ext; [|done].
      intros a _. cbn. rewrite Hsize. by destruct a.
    - rewrite !patched_slices.
      rewrite (last_index_contents _ _ Ha), (last_index_contents _ _ Hb).
      rewrite Ha, Hb, Hdisk1, patched_last_index, patched_slices.
      rewrite list_insert_insert_eq. f_equal.
      cbn [file_size patched]. fold fs. unfold h1, loc1.
      by rewrite Hsize, reconcile_twice. }
  destruct (fix_exe_completes wa h loc Hlasta Hval) as (w2' & Hc & Hd).
  { by rewrite Hsame, <- Hdisk2. }
  exists w2'. split; [done|]. by rewrite Hd, Hsame.
Qed.

Lemma patch_twice_is_patch_once_witness :
  exists w2',
    completes (Scenario.thin 100050 Scenario.unsigned_cmds) w2' /\
    contents (disk w2')
    = Thin [Segment64 Scenario.text;
            Segment64 (set_filesize 5050 Scenario.linkedit);
            Symtab (set_strsize 450 Scenario.symtab);
            OtherCommand 36 []].
Proof.
  destruct (patch_twice_is_patch_once
              (Scenario.thin 100020 Scenario.unsigned_cmds)
              (fix_exe_for_code_signing
                 (Scenario.thin 100020 Scenario.unsigned_cmds)).2
              (Scenario.thin 100050 Scenario.unsigned_cmds)
              (Scenario.thin 100050
                 [Segment64 Scenario.text;
                  Segment64 (set_filesize 5020 Scenario.linkedit);
                  Symtab (set_strsize 420 Scenario.symtab);
                  OtherCommand 36 []])
              (fix_exe_for_code_signing
                 (Scenario.thin 100050
                    [Segment64 Scenario.text;
                     Segment64 (set_filesize 5020 Scenario.linkedit);
                     Symtab (set_strsize 420 Scenario.symtab);
                     OtherCommand 36 []])).2
              ltac:(by vm_compute) ltac:(by vm_compute) eq_refl eq_refl
              ltac:(by vm_compute))
    as (w2' & Hc & Hd).
  exists w2'. split; [exact Hc|]. rewrite Hd. by vm_compute.
Defined.

(** ** A string table that cannot grow *)






